(** * TensorEnumeration::Lexicographic

    A shallow embedding of [include/tensor_enumeration/lexicographic.h]:
    the enumeration of the [k]-dimensional faces of an [n]-fold tensor
    product grid, with the index -> element map [operator[]] and the
    element -> index map [index].

    The class template is embedded at its default integer types,
    [Bint = unsigned int] (32 bits), [Sint = unsigned short] (16 bits) and
    [Tint = unsigned char] (8 bits); values of these types are integers
    in [Z], reduced modulo the width wherever the C++ code stores them.
    The template arguments [n] and [k] are natural numbers with
    [k <= n] (the member [std::array<Sint, n-k>] allows no others).

    The header [combinations.h], on which the class builds, is embedded
    from its description: the [k]-subsets of the axes in lexicographic
    order, the place of a subset in that order, and the chosen and the
    remaining axes of a subset. *)

From Stdlib Require Import ZArith List Lia Bool Arith PeanoNat FinFun.
Import ListNotations.
Local Open Scope Z_scope.

(* ================================================================== *)
(** * Machine integers *)
(* ================================================================== *)

Definition Bint_bits : Z := 32.
Definition Sint_bits : Z := 16.
Definition Tint_bits : Z := 8.

Definition Bint_modulus : Z := 2 ^ Bint_bits.
Definition Sint_modulus : Z := 2 ^ Sint_bits.
Definition Tint_modulus : Z := 2 ^ Tint_bits.

(** Conversion of an integer value to the unsigned type (wrap-around). *)
Definition to_Bint (x : Z) : Z := x mod Bint_modulus.
Definition to_Sint (x : Z) : Z := x mod Sint_modulus.
Definition to_Tint (x : Z) : Z := x mod Tint_modulus.

Definition prod_Z (l : list Z) : Z := fold_right Z.mul 1 l.
Definition sum_Z (l : list Z) : Z := fold_right Z.add 0 l.

(* ================================================================== *)
(** * Combinations (header [tensor_enumeration/combinations.h]) *)
(* ================================================================== *)

Module Combinations.

(** Modelled from the spec: [binomial(n,k)] of combinations.h, the
    binomial coefficient C(n,k) ("count() -> C(n, k)"). *)
Fixpoint binomial (n k : nat) {struct n} : nat :=
  match n, k with
  | _, O => 1%nat
  | O, S _ => 0%nat
  | S n', S k' => (binomial n' k' + binomial n' k)%nat
  end.

(** Modelled from the spec: the type [Combination<n,k>] of
    combinations.h, "an immutable strictly-increasing tuple
    (a0 < a1 < ... < a_{k-1}) with a_j in {0,...,n-1}". *)
Definition Combination : Type := list nat.

(** Modelled from the spec: the enumeration behind [Combinations<n,k>]
    of combinations.h, "the C(n, k) strictly-increasing k-subsets of
    {0,...,n-1} in lexicographic order"; here the [k]-subsets of
    [{lo, ..., lo+m-1}], first those that contain [lo], then the others. *)
Fixpoint enumerate (m lo k : nat) {struct m} : list Combination :=
  match k, m with
  | O, _ => [[]]
  | S _, O => []
  | S k', S m' =>
      map (cons lo) (enumerate m' (S lo) k') ++ enumerate m' (S lo) k
  end.

(** Modelled from the spec: all combinations of [Combinations<n,k>] of
    combinations.h, in the order of [operator[]]. *)
Definition all (n k : nat) : list Combination := enumerate n 0 k.

(** Modelled from the spec: [Combinations<n,k>::operator[]] of
    combinations.h, "at(i): for i in [0, C(n, k)), returns the i-th
    subset in lexicographic order". *)
Definition get (n k : nat) (i : nat) : Combination := nth i (all n k) [].

(** Modelled from the spec: the search behind [Combinations<n,k>::index]
    of combinations.h, the place of [c] in the enumeration (the length of
    the enumeration when [c] does not occur). *)
Fixpoint position (c : Combination) (l : list Combination) : nat :=
  match l with
  | [] => 0%nat
  | x :: l' =>
      if list_eq_dec Nat.eq_dec x c then 0%nat else S (position c l')
  end.

(** Modelled from the spec: [Combinations<n,k>::index] of
    combinations.h, "index_of(c) -> i: the inverse" of [at]. *)
Definition index (n k : nat) (c : Combination) : nat :=
  position c (all n k).

(** Modelled from the spec: [Combination::in] of combinations.h,
    "in(j) = a_j (the j-th chosen axis)". *)
Definition in_ (c : Combination) (j : nat) : nat := nth j c 0%nat.

(** Modelled from the spec: the complement of a [Combination<n,k>] of
    combinations.h, the axes of [{0,...,n-1}] that are not chosen, in
    increasing order. *)
Definition complement (n : nat) (c : Combination) : list nat :=
  filter (fun a => negb (existsb (Nat.eqb a) c)) (seq 0 n).

(** Modelled from the spec: [Combination::out] of combinations.h,
    "out(j) enumerating the complement in increasing order". *)
Definition out_ (n : nat) (c : Combination) (j : nat) : nat :=
  nth j (complement n c) 0%nat.

(** Modelled from the spec: the invariant of [Combination<n,k>] of
    combinations.h, a strictly increasing tuple, here with entries from
    [lo] on. *)
Fixpoint increasing_from (lo : nat) (c : Combination) : Prop :=
  match c with
  | [] => True
  | a :: c' => (lo <= a)%nat /\ increasing_from (S a) c'
  end.

(** Modelled from the spec: a valid [Combination<n,k>] of
    combinations.h, [k] strictly increasing axes below [n]. *)
Definition valid (n k : nat) (c : Combination) : Prop :=
  length c = k /\ increasing_from 0 c /\ Forall (fun a => (a < n)%nat) c.

End Combinations.

Import Combinations.

(* ================================================================== *)
(** * The class [Lexicographic<n,k>] *)
(* ================================================================== *)

(** The data members [dimensions] and [block_sizes]. *)
Record Lexicographic : Type := {
  dimensions : list Z;
  block_sizes : list Z
}.

(** [struct Element]. *)
Record Element : Type := {
  directions : Combination;
  position_along : list Z;
  position_across : list Z
}.

(** What a call of [operator[]] does: it returns an element, throws the
    block counter [b], or divides by a zero radix (undefined behaviour). *)
Inductive outcome : Type :=
| Returned (e : Element)
| Thrown (b : Z)
| DivisionByZero.

(** [a[i]] on a [std::array] (any value stands for a read out of range). *)
Definition array_get (a : list Z) (i : nat) : Z := nth i a 0.

(** [a[i] = x]. *)
Fixpoint array_set (a : list Z) (i : nat) (x : Z) : list Z :=
  match a, i with
  | [], _ => []
  | _ :: a', O => x :: a'
  | y :: a', S i' => y :: array_set a' i' x
  end.

(** [for (Tint i = start; i < bound; ++i) body]: the counter is a [Tint],
    so [++i] wraps around at [Tint_modulus]; [None] when [fuel] iterations
    did not finish the loop. *)
Fixpoint Tint_for {S : Type} (fuel : nat) (i bound : Z)
    (body : Z -> S -> option S) (s : S) : option S :=
  match fuel with
  | O => None
  | Datatypes.S fuel' =>
      if i <? bound then
        match body i s with
        | Some s' => Tint_for fuel' (to_Tint (i + 1)) bound body s'
        | None => None
        end
      else Some s
  end.

Section Enumerator.

(** The template parameters [n] (tensor order) and [k] (cell dimension). *)
Variables n k : nat.

(** The two inner loops of the constructor: the value of [p] that is
    stored into [block_sizes[i]]. *)
Definition block_product (fuel : nat) (d : list Z) (combination : Combination)
  : option Z :=
  match Tint_for fuel 0 (Z.of_nat k)
          (fun j p =>
             Some (to_Bint (p * array_get d (in_ combination (Z.to_nat j)))))
          1 with
  | Some p =>
      Tint_for fuel 0 (Z.of_nat n - Z.of_nat k)
        (fun j p =>
           Some (to_Bint
                   (p * (1 + array_get d (out_ n combination (Z.to_nat j))))))
        p
  | None => None
  end.

(** The constructor [Lexicographic(const std::array<Sint, n>& d)]. The
    array [block_sizes] starts with arbitrary contents (here zeros) and
    slot [i] is assigned in iteration [i]. *)
Definition Lexicographic_ctor (fuel : nat) (d : list Z)
  : option Lexicographic :=
  match Tint_for fuel 0 (Z.of_nat (binomial n k))
          (fun i bs =>
             match block_product fuel d (get n k (Z.to_nat i)) with
             | Some p => Some (array_set bs (Z.to_nat i) p)
             | None => None
             end)
          (repeat 0 (binomial n k)) with
  | Some bs => Some {| dimensions := d; block_sizes := bs |}
  | None => None
  end.

(** [size()]. *)
Definition size (L : Lexicographic) : Z :=
  fold_left (fun sum x => to_Bint (sum + x)) (block_sizes L) 0.

(** [block_size(block)]. *)
Definition block_size (L : Lexicographic) (block : Z) : Z :=
  array_get (block_sizes L) (Z.to_nat block).

(** The [while] loop of [operator[]]: walks [block_sizes] from block
    [b] on and returns the block reached and the index left. *)
Fixpoint find_block (sizes : list Z) (b : nat) (index : Z) : nat * Z :=
  match sizes with
  | [] => (b, index)
  | s :: rest =>
      if index <? s then (b, index)
      else find_block rest (S b) (to_Bint (index - s))
  end.

(** A digit loop of [operator[]]: for each [i], [fdim] is the radix,
    the digit [index % fdim] is stored as an [Sint] and [index /= fdim]. *)
Fixpoint split_digits (fdim_of : nat -> Z) (idxs : list nat) (index : Z)
  : option (list Z * Z) :=
  match idxs with
  | [] => Some ([], index)
  | i :: idxs' =>
      let fdim := fdim_of i in
      if fdim =? 0 then None
      else
        match split_digits fdim_of idxs' (index / fdim) with
        | Some (digits, index') =>
            Some (to_Sint (index mod fdim) :: digits, index')
        | None => None
        end
  end.

(** [Tint fdim = dimensions[combination.in(i)]]. *)
Definition fdim_along (L : Lexicographic) (c : Combination) (i : nat) : Z :=
  to_Tint (array_get (dimensions L) (in_ c i)).

(** [Tint fdim = 1 + dimensions[combination.out(i)]]. *)
Definition fdim_across (L : Lexicographic) (c : Combination) (i : nat) : Z :=
  to_Tint (1 + array_get (dimensions L) (out_ n c i)).

(** [Element operator[] (Bint index) const]. *)
Definition operator_brackets (L : Lexicographic) (index : Z) : outcome :=
  let '(b, index) := find_block (block_sizes L) 0 index in
  if Nat.eqb b (length (block_sizes L)) then Thrown (Z.of_nat b)
  else
    let combination := get n k b in
    match split_digits (fdim_along L combination) (seq 0 k) index with
    | None => DivisionByZero
    | Some (along, index) =>
        match split_digits (fdim_across L combination) (seq 0 (n - k)) index
        with
        | None => DivisionByZero
        | Some (across, _) =>
            Returned {| directions := combination;
                        position_along := along;
                        position_across := across |}
        end
    end.

(** A digit loop of [index]: [result += position[i] * factor] and
    [factor *= fdim] in [Bint] arithmetic. *)
Fixpoint add_digits (fdim_of : nat -> Z) (position : list Z)
    (idxs : list nat) (result factor : Z) : Z * Z :=
  match idxs with
  | [] => (result, factor)
  | i :: idxs' =>
      let fdim := fdim_of i in
      add_digits fdim_of position idxs'
        (to_Bint (result + to_Bint (array_get position i * factor)))
        (to_Bint (factor * fdim))
  end.

(** [Bint index (const Element& e) const]. *)
Definition index (L : Lexicographic) (e : Element) : Z :=
  let ci := Combinations.index n k (directions e) in
  let result :=
    fold_left (fun result i => to_Bint (result + array_get (block_sizes L) i))
      (seq 0 ci) 0 in
  let '(result, factor) :=
    add_digits (fdim_along L (directions e)) (position_along e)
      (seq 0 k) result 1 in
  let '(result, _) :=
    add_digits (fdim_across L (directions e)) (position_across e)
      (seq 0 (n - k)) result factor in
  result.

End Enumerator.

(* ================================================================== *)
(** * Reference quantities of the specification *)
(* ================================================================== *)

(** The radix of the [j]-th along-axis of a block: [d[in(j)]]. *)
Definition along_radix (d : list Z) (c : Combination) (j : nat) : Z :=
  array_get d (in_ c j).

(** The radix of the [j]-th across-axis of a block: [d[out(j)] + 1]. *)
Definition across_radix (n : nat) (d : list Z) (c : Combination) (j : nat)
  : Z :=
  array_get d (out_ n c j) + 1.

(** All radices of a block, least significant digit first. *)
Definition block_radices (n k : nat) (d : list Z) (c : Combination)
  : list Z :=
  map (along_radix d c) (seq 0 k) ++ map (across_radix n d c) (seq 0 (n - k)).

(** [B[b]]: the number of cells of block [b], as an integer. *)
Definition block_cells (n k : nat) (d : list Z) (b : nat) : Z :=
  prod_Z (map (along_radix d (get n k b)) (seq 0 k))
  * prod_Z (map (across_radix n d (get n k b)) (seq 0 (n - k))).

(** The number of [k]-cells: the sum of [B[b]] over all blocks. *)
Definition total_cells (n k : nat) (d : list Z) : Z :=
  sum_Z (map (block_cells n k d) (seq 0 (binomial n k))).

(** The number of cells in the blocks before block [b]. *)
Definition cells_before (n k : nat) (d : list Z) (b : nat) : Z :=
  sum_Z (map (block_cells n k d) (seq 0 b)).

(** A value of type [std::array<Sint, n>]. *)
Definition shape (n : nat) (d : list Z) : Prop :=
  length d = n /\ Forall (fun x => 0 <= x < Sint_modulus) d.

(** The invariant [d[i] >= 1] of a grid shape. *)
Definition positive (d : list Z) : Prop := Forall (fun x => 1 <= x) d.

(** A well-formed element of the grid of shape [d]. *)
Definition well_formed (n k : nat) (d : list Z) (e : Element) : Prop :=
  valid n k (directions e)
  /\ length (position_along e) = k
  /\ length (position_across e) = (n - k)%nat
  /\ (forall j, (j < k)%nat ->
        0 <= array_get (position_along e) j < along_radix d (directions e) j)
  /\ (forall j, (j < n - k)%nat ->
        0 <= array_get (position_across e) j
        < across_radix n d (directions e) j).

(** The loop bounds of the constructor are values of the counter type. *)
Definition counters_fit (n k : nat) : Prop :=
  Z.of_nat (binomial n k) < Tint_modulus
  /\ Z.of_nat k < Tint_modulus
  /\ Z.of_nat n - Z.of_nat k < Tint_modulus.

(** Every radix in use is a value of type [Tint]. *)
Definition radices_fit (n k : nat) (d : list Z) : Prop :=
  forall b, (b < binomial n k)%nat ->
    Forall (fun r => r < Tint_modulus) (block_radices n k d (get n k b)).

(** No radix in use is 0 once it is stored in the [Tint] variable
    [fdim]: none is a multiple of [Tint_modulus]. *)
Definition radices_nonzero (n k : nat) (d : list Z) : Prop :=
  forall b, (b < binomial n k)%nat ->
    Forall (fun r => r mod Tint_modulus <> 0)
      (block_radices n k d (get n k b)).

(** The number of cells is a value of type [Bint]. *)
Definition fits_Bint (n k : nat) (d : list Z) : Prop :=
  total_cells n k d < Bint_modulus.

(** Both round trips between indices and well-formed elements. *)
Definition bijection (n k : nat) (d : list Z) (L : Lexicographic) : Prop :=
  (forall i, 0 <= i < size L ->
     exists e, operator_brackets n k L i = Returned e /\ index n k L e = i)
  /\ (forall e, well_formed n k d e ->
        operator_brackets n k L (index n k L e) = Returned e).

(* ================================================================== *)
(** * The values computed by the loops *)
(* ================================================================== *)

(** The iterations [i, i+1, ..., bound-1] of a counting loop. *)
Definition iterations (i bound : Z) : list nat :=
  seq (Z.to_nat i) (Z.to_nat (bound - i)).

(** The state after running the body [f] for each of these iterations. *)
Definition counted {S : Type} (f : nat -> S -> S) (i bound : Z) (s : S) : S :=
  fold_left (fun s j => f j s) (iterations i bound) s.

(** The value of [p] after the two inner loops of the constructor. *)
Definition block_value (n k : nat) (d : list Z) (c : Combination) : Z :=
  fold_left (fun p j => to_Bint (p * (1 + array_get d (out_ n c j))))
    (seq 0 (n - k))
    (fold_left (fun p j => to_Bint (p * array_get d (in_ c j))) (seq 0 k) 1).

(** The enumerator that the constructor leaves behind. *)
Definition built (n k : nat) (d : list Z) : Lexicographic :=
  {| dimensions := d;
     block_sizes :=
       map (fun b => block_value n k d (get n k b)) (seq 0 (binomial n k)) |}.

(** The value of the digits [ds] in the mixed-radix system with radices
    [rs], least significant digit first. *)
Fixpoint mixed_radix (rs ds : list Z) : Z :=
  match rs, ds with
  | r :: rs', a :: ds' => a + r * mixed_radix rs' ds'
  | _, _ => 0
  end.

(** The radices that [operator[]] and [index] work with in a block: the
    successive values of the variable [fdim]. *)
Definition block_fdims (n k : nat) (L : Lexicographic) (c : Combination)
  : list Z :=
  map (fdim_along L c) (seq 0 k) ++ map (fdim_across n L c) (seq 0 (n - k)).

(** The sum of the stored sizes of the blocks before block [b]. *)
Definition stored_before (L : Lexicographic) (b : nat) : Z :=
  sum_Z (firstn b (block_sizes L)).

(** The digits that [index] reads from an element, in the order of the
    two loops. *)
Definition digits_of (n k : nat) (e : Element) : list Z :=
  map (array_get (position_along e)) (seq 0 k)
  ++ map (array_get (position_across e)) (seq 0 (n - k)).

(* ================================================================== *)
(** * The other members of the class *)
(* ================================================================== *)

(** [static constexpr Tint order()]: [return n;], converted to [Tint]. *)
Definition order (n : nat) : Z := to_Tint (Z.of_nat n).

(** [static constexpr Tint cell_dimension()]: [return k;], converted to
    [Tint]. *)
Definition cell_dimension (k : nat) : Z := to_Tint (Z.of_nat k).

(** A scatter loop of [Element::print_debug]: for each [i],
    [data[axis(i)] = position[i]] (an axis beyond the array stands for a
    write out of range and leaves the array as it is). *)
Definition scatter (axis_of : nat -> nat) (position : list Z)
    (idxs : list nat) (data : list Z) : list Z :=
  fold_left (fun data i => array_set data (axis_of i) (array_get position i))
    idxs data.

(** The local array [data] of [Element::print_debug] after the two
    scatter loops; the argument [data] is its content before, which the
    declaration [std::array<Sint, n> data;] leaves arbitrary. *)
Definition print_debug_data (n k : nat) (e : Element) (data : list Z)
  : list Z :=
  scatter (out_ n (directions e)) (position_across e) (seq 0 (n - k))
    (scatter (in_ (directions e)) (position_along e) (seq 0 k) data).

(* ================================================================== *)
(** * Combinations: the enumeration and its inverse *)
(* ================================================================== *)

Lemma binomial_above (n : nat) : forall k, (n < k)%nat -> binomial n k = 0%nat.
Proof.
  induction n as [|n IH]; intros [|k] H; simpl; try lia.
  rewrite !IH by lia. reflexivity.
Qed.

Lemma binomial_diag (n : nat) : binomial n n = 1%nat.
Proof.
  induction n as [|n IH]; simpl; [reflexivity|].
  rewrite IH, binomial_above by lia. reflexivity.
Qed.

Lemma binomial_0_r (n : nat) : binomial n 0 = 1%nat.
Proof. destruct n; reflexivity. Qed.

Lemma enumerate_0 (m lo : nat) : enumerate m lo 0 = [[]].
Proof. destruct m; reflexivity. Qed.

Lemma enumerate_length (m : nat) :
  forall lo k, length (enumerate m lo k) = binomial m k.
Proof.
  induction m as [|m IH]; intros lo [|k]; simpl; try reflexivity.
  rewrite length_app, length_map, !IH. reflexivity.
Qed.

Lemma increasing_from_weaken (c : Combination) :
  forall lo lo', (lo' <= lo)%nat -> increasing_from lo c -> increasing_from lo' c.
Proof. destruct c; simpl; intros; [trivial|]. intuition lia. Qed.

Lemma increasing_from_lower (c : Combination) :
  forall lo, increasing_from lo c -> Forall (fun a => (lo <= a)%nat) c.
Proof.
  induction c as [|a c IH]; simpl; intros lo H; constructor.
  - tauto.
  - destruct H as [Ha H]. apply IH in H.
    eapply Forall_impl; [|exact H]. simpl. intros; lia.
Qed.

Lemma enumerate_sound (m : nat) :
  forall lo k c, In c (enumerate m lo k) ->
    length c = k /\ increasing_from lo c
    /\ Forall (fun a => (a < lo + m)%nat) c.
Proof.
  induction m as [|m IH]; intros lo [|k] c; simpl.
  - intros [<-|[]]. repeat split; constructor.
  - intros [].
  - intros [<-|[]]. repeat split; constructor.
  - rewrite in_app_iff, in_map_iff.
    intros [(c' & <- & Hc')|Hc].
    + apply IH in Hc' as (Hl & Hi & Hb). simpl. repeat split.
      * congruence.
      * lia.
      * exact Hi.
      * constructor; [lia|].
        eapply Forall_impl; [|exact Hb]. simpl. intros; lia.
    + apply IH in Hc as (Hl & Hi & Hb). repeat split.
      * exact Hl.
      * apply increasing_from_weaken with (S lo); [lia|exact Hi].
      * eapply Forall_impl; [|exact Hb]. simpl. intros; lia.
Qed.

Lemma enumerate_complete (m : nat) :
  forall lo k c, length c = k -> increasing_from lo c ->
    Forall (fun a => (a < lo + m)%nat) c -> In c (enumerate m lo k).
Proof.
  induction m as [|m IH]; intros lo k c Hl Hi Hb.
  - destruct c as [|a c]; simpl in *.
    + subst k. left; reflexivity.
    + inversion Hb; subst. lia.
  - destruct c as [|a c]; simpl in *.
    + subst k. left; reflexivity.
    + subst k. destruct Hi as [Ha Hi]. inversion Hb as [|? ? Ha' Hb']; subst.
      apply in_app_iff. destruct (Nat.eq_dec a lo) as [->|Hne].
      * left. apply in_map. apply IH; auto.
        eapply Forall_impl; [|exact Hb']. simpl. intros; lia.
      * right. apply IH; simpl; auto.
        -- split; [lia|exact Hi].
        -- constructor; [lia|].
           eapply Forall_impl; [|exact Hb']. simpl. intros; lia.
Qed.

Lemma enumerate_NoDup (m : nat) : forall lo k, NoDup (enumerate m lo k).
Proof.
  induction m as [|m IH]; intros lo [|k]; simpl;
    try (repeat constructor; simpl; tauto).
  apply NoDup_app.
  - apply Injective_map_NoDup; [|apply IH].
    intros x y H; congruence.
  - apply IH.
  - intros c H1 H2. apply in_map_iff in H1 as (c' & <- & _).
    apply enumerate_sound in H2 as (_ & [H _] & _). lia.
Qed.

Lemma position_nth (c : Combination) (l : list Combination) :
  In c l -> (position c l < length l)%nat /\ nth (position c l) l [] = c.
Proof.
  induction l as [|x l IH]; simpl; [tauto|].
  intros H. destruct (list_eq_dec Nat.eq_dec x c) as [->|Hne].
  - split; [lia|reflexivity].
  - destruct H as [H|H]; [contradiction|].
    destruct (IH H). split; [lia|assumption].
Qed.

Lemma nth_position (l : list Combination) :
  NoDup l -> forall i, (i < length l)%nat -> position (nth i l []) l = i.
Proof.
  induction 1 as [|x l Hx Hl IH]; simpl; intros i Hi; [lia|].
  destruct i as [|i].
  - destruct (list_eq_dec Nat.eq_dec x x); congruence.
  - destruct (list_eq_dec Nat.eq_dec x (nth i l [])) as [->|_].
    + exfalso. apply Hx. apply nth_In. lia.
    + rewrite IH by lia. reflexivity.
Qed.

Lemma valid_all (n k : nat) (c : Combination) : valid n k c <-> In c (all n k).
Proof.
  unfold valid, all. split.
  - intros (Hl & Hi & Hb). apply enumerate_complete; auto.
  - intros H. apply enumerate_sound in H. exact H.
Qed.

Lemma get_valid (n k b : nat) : (b < binomial n k)%nat -> valid n k (get n k b).
Proof.
  intros H. apply valid_all. unfold get. apply nth_In.
  unfold all. rewrite enumerate_length. exact H.
Qed.

Lemma index_get (n k b : nat) :
  (b < binomial n k)%nat -> Combinations.index n k (get n k b) = b.
Proof.
  intros H. unfold Combinations.index, get, all.
  apply nth_position; [apply enumerate_NoDup|].
  rewrite enumerate_length. exact H.
Qed.

Lemma get_index (n k : nat) (c : Combination) :
  valid n k c ->
  (Combinations.index n k c < binomial n k)%nat
  /\ get n k (Combinations.index n k c) = c.
Proof.
  intros H. apply valid_all in H. apply position_nth in H.
  unfold all in H. rewrite enumerate_length in H. exact H.
Qed.

(** The chosen axes are recovered from the axis list by membership. *)
Lemma filter_member (m : nat) :
  forall lo (c : Combination), increasing_from lo c ->
    Forall (fun a => (a < lo + m)%nat) c ->
    filter (fun a => existsb (Nat.eqb a) c) (seq lo m) = c.
Proof.
  induction m as [|m IH]; intros lo c Hi Hb.
  - destruct c as [|a c]; [reflexivity|].
    simpl in Hi. inversion Hb; subst. lia.
  - destruct c as [|a c].
    + simpl. apply filter_false.
    + simpl in Hi. destruct Hi as [Ha Hi].
      inversion Hb as [|? ? Ha' Hb']; subst.
      cbn [seq filter existsb]. destruct (Nat.eqb_spec lo a) as [->|Hne].
      * cbn [orb]. f_equal.
        transitivity (filter (fun x => existsb (Nat.eqb x) c) (seq (S a) m)).
        -- apply filter_ext_in. intros x Hx. apply in_seq in Hx.
           simpl. destruct (Nat.eqb_spec x a); [lia|reflexivity].
        -- apply IH; [exact Hi|].
           eapply Forall_impl; [|exact Hb']. simpl. intros; lia.
      * cbn [orb].
        assert (Hlo : existsb (Nat.eqb lo) c = false).
        { apply not_true_is_false. intros H.
          apply existsb_exists in H as (x & Hx & Hxe).
          apply Nat.eqb_eq in Hxe. subst x.
          apply increasing_from_lower in Hi.
          rewrite Forall_forall in Hi. specialize (Hi _ Hx). simpl in Hi. lia. }
        rewrite Hlo.
        change (filter (fun a0 => existsb (Nat.eqb a0) (a :: c)) (seq (S lo) m)
                = a :: c).
        apply IH.
        -- simpl. split; [lia|exact Hi].
        -- constructor; [lia|].
           eapply Forall_impl; [|exact Hb']. simpl. intros; lia.
Qed.

Lemma complement_length (n k : nat) (c : Combination) :
  valid n k c -> length (complement n c) = (n - k)%nat.
Proof.
  intros (Hl & Hi & Hb). unfold complement.
  pose proof (filter_length (fun a => existsb (Nat.eqb a) c) (seq 0 n)) as H.
  rewrite filter_member in H by assumption.
  rewrite length_seq in H. lia.
Qed.

Lemma in_lt (n k : nat) (c : Combination) (j : nat) :
  valid n k c -> (j < k)%nat -> (in_ c j < n)%nat.
Proof.
  intros (Hl & _ & Hb) Hj. rewrite Forall_forall in Hb.
  apply Hb. unfold in_. apply nth_In. lia.
Qed.

Lemma out_lt (n k : nat) (c : Combination) (j : nat) :
  valid n k c -> (j < n - k)%nat -> (out_ n c j < n)%nat.
Proof.
  intros Hv Hj. apply complement_length in Hv.
  assert (H : In (out_ n c j) (complement n c)).
  { unfold out_. apply nth_In. lia. }
  unfold complement in H. apply filter_In in H as [H _].
  apply in_seq in H. lia.
Qed.

Lemma all_0 (n : nat) : all n 0 = [[]].
Proof. apply enumerate_0. Qed.

Lemma enumerate_full (m : nat) : forall lo, enumerate m lo m = [seq lo m].
Proof.
  induction m as [|m IH]; intros lo; [reflexivity|].
  simpl. rewrite IH.
  assert (H : enumerate m (S lo) (S m) = []).
  { apply length_zero_iff_nil. rewrite enumerate_length.
    apply binomial_above. lia. }
  rewrite H. reflexivity.
Qed.

Lemma complement_nil (n : nat) : complement n [] = seq 0 n.
Proof. unfold complement. apply forallb_filter_id. apply forallb_forall. reflexivity. Qed.

Lemma complement_full (n : nat) : complement n (seq 0 n) = [].
Proof.
  unfold complement.
  rewrite (filter_ext_in _ (fun _ => false)); [apply filter_false|].
  intros a Ha. apply negb_false_iff. apply existsb_exists.
  exists a. split; [exact Ha|apply Nat.eqb_refl].
Qed.

(* ================================================================== *)
(** * Machine arithmetic *)
(* ================================================================== *)

Lemma Bint_modulus_eq : Bint_modulus = 4294967296.
Proof. reflexivity. Qed.

Lemma Tint_modulus_eq : Tint_modulus = 256.
Proof. reflexivity. Qed.

Lemma Sint_modulus_eq : Sint_modulus = 65536.
Proof. reflexivity. Qed.

Lemma to_Bint_range (x : Z) : 0 <= to_Bint x < Bint_modulus.
Proof. unfold to_Bint. apply Z.mod_pos_bound. reflexivity. Qed.

Lemma to_Bint_small (x : Z) : 0 <= x < Bint_modulus -> to_Bint x = x.
Proof. unfold to_Bint. apply Z.mod_small. Qed.

Lemma to_Bint_le (x : Z) : 0 <= x -> to_Bint x <= x.
Proof. intros H. unfold to_Bint. apply Z.mod_le; [exact H|reflexivity]. Qed.

Lemma to_Bint_idem (x : Z) : to_Bint (to_Bint x) = to_Bint x.
Proof. apply to_Bint_small, to_Bint_range. Qed.

Lemma to_Bint_add_l (x y : Z) : to_Bint (to_Bint x + y) = to_Bint (x + y).
Proof. unfold to_Bint. apply Zplus_mod_idemp_l. Qed.

Lemma to_Bint_add_r (x y : Z) : to_Bint (x + to_Bint y) = to_Bint (x + y).
Proof. unfold to_Bint. apply Zplus_mod_idemp_r. Qed.

Lemma to_Bint_mul_l (x y : Z) : to_Bint (to_Bint x * y) = to_Bint (x * y).
Proof. unfold to_Bint. apply Zmult_mod_idemp_l. Qed.

Lemma to_Bint_mul_r (x y : Z) : to_Bint (x * to_Bint y) = to_Bint (x * y).
Proof. unfold to_Bint. apply Zmult_mod_idemp_r. Qed.

Lemma to_Tint_range (x : Z) : 0 <= to_Tint x < Tint_modulus.
Proof. unfold to_Tint. apply Z.mod_pos_bound. reflexivity. Qed.

Lemma to_Tint_small (x : Z) : 0 <= x < Tint_modulus -> to_Tint x = x.
Proof. unfold to_Tint. apply Z.mod_small. Qed.

Lemma to_Tint_le (x : Z) : 0 <= x -> to_Tint x <= x.
Proof. intros H. unfold to_Tint. apply Z.mod_le; [exact H|reflexivity]. Qed.

Lemma to_Sint_small (x : Z) : 0 <= x < Sint_modulus -> to_Sint x = x.
Proof. unfold to_Sint. apply Z.mod_small. Qed.

Lemma prod_Z_app (l l' : list Z) : prod_Z (l ++ l') = prod_Z l * prod_Z l'.
Proof.
  induction l as [|x l IH]; simpl; [destruct (prod_Z l'); reflexivity|].
  rewrite IH. ring.
Qed.

Lemma sum_Z_app (l l' : list Z) : sum_Z (l ++ l') = sum_Z l + sum_Z l'.
Proof. induction l as [|x l IH]; simpl; [reflexivity|]. rewrite IH. ring. Qed.

Lemma prod_Z_pos (l : list Z) : Forall (fun r => 1 <= r) l -> 1 <= prod_Z l.
Proof.
  induction 1 as [|x l Hx Hl IH]; simpl; [lia|]. nia.
Qed.

Lemma prod_Z_nonneg (l : list Z) : Forall (fun r => 0 <= r) l -> 0 <= prod_Z l.
Proof.
  induction 1 as [|x l Hx Hl IH]; simpl; [lia|]. nia.
Qed.

Lemma sum_Z_nonneg (l : list Z) : Forall (fun r => 0 <= r) l -> 0 <= sum_Z l.
Proof.
  induction 1 as [|x l Hx Hl IH]; simpl; lia.
Qed.

(* ================================================================== *)
(** * Loops with a [Tint] counter *)
(* ================================================================== *)

Lemma iterations_done (i bound : Z) : bound <= i -> iterations i bound = [].
Proof.
  intros H. unfold iterations.
  replace (Z.to_nat (bound - i)) with 0%nat by lia. reflexivity.
Qed.

Lemma iterations_step (i bound : Z) :
  0 <= i < bound ->
  iterations i bound = Z.to_nat i :: iterations (i + 1) bound.
Proof.
  intros H. unfold iterations.
  replace (Z.to_nat (bound - i)) with (S (Z.to_nat (bound - (i + 1)))) by lia.
  replace (Z.to_nat (i + 1)) with (S (Z.to_nat i)) by lia.
  reflexivity.
Qed.

Section TintLoop.

Context {S : Type}.
Variable body : Z -> S -> option S.
Variable f : nat -> S -> S.
Variable bound : Z.

(** A loop that finishes has a bound below the counter's modulus and
    has run the body once for each counter value. *)
Lemma Tint_for_finished (fuel : nat) :
  (forall j s s', body j s = Some s' -> s' = f (Z.to_nat j) s) ->
  forall i s s', 0 <= i < Tint_modulus ->
    Tint_for fuel i bound body s = Some s' ->
    s' = counted f i bound s
    /\ (i < bound -> bound < Tint_modulus /\ exists s1, body i s = Some s1).
Proof.
  intros Hbody. induction fuel as [|fuel IH]; intros i s s' Hi; simpl.
  - discriminate.
  - destruct (Z.ltb_spec i bound) as [Hlt|Hge].
    + destruct (body i s) as [s1|] eqn:Hs1; [|discriminate].
      intros Hrun. pose proof (Hbody _ _ _ Hs1) as ->.
      assert (Hcases : i + 1 < Tint_modulus \/ i + 1 = Tint_modulus) by lia.
      destruct Hcases as [Hsmall|Hwrap].
      * rewrite to_Tint_small in Hrun by lia.
        apply IH in Hrun as [-> Hb]; [|lia]. split.
        -- unfold counted. rewrite (iterations_step i bound) by lia. reflexivity.
        -- intros _. split; [|eauto].
           destruct (Z.ltb_spec (i + 1) bound) as [H|H]; [apply Hb, H|lia].
      * replace (to_Tint (i + 1)) with 0 in Hrun
          by (rewrite Hwrap; reflexivity).
        apply IH in Hrun as [_ Hb]; [|rewrite Tint_modulus_eq; lia].
        destruct Hb as [Hb _]; lia.
    + intros [= <-]. split; [|lia].
      unfold counted. rewrite iterations_done by lia. reflexivity.
Qed.

(** A loop whose bound is a counter value finishes, given enough fuel. *)
Lemma Tint_for_finishes (fuel : nat) :
  (forall j s, 0 <= j < bound -> body j s = Some (f (Z.to_nat j) s)) ->
  bound < Tint_modulus ->
  forall i s, 0 <= i -> (Z.to_nat (bound - i) < fuel)%nat ->
    Tint_for fuel i bound body s = Some (counted f i bound s).
Proof.
  intros Hbody Hbound. induction fuel as [|fuel IH]; intros i s Hi Hfuel.
  - lia.
  - simpl. destruct (Z.ltb_spec i bound) as [Hlt|Hge].
    + rewrite Hbody by lia. rewrite to_Tint_small by lia.
      rewrite IH by lia.
      unfold counted. rewrite (iterations_step i bound) by lia. reflexivity.
    + unfold counted. rewrite iterations_done by lia. reflexivity.
Qed.

(** A loop whose bound is not a counter value never finishes. *)
Lemma Tint_for_loops_forever (fuel : nat) :
  (forall j s s', body j s = Some s' -> s' = f (Z.to_nat j) s) ->
  Tint_modulus <= bound ->
  forall i s, 0 <= i < Tint_modulus -> Tint_for fuel i bound body s = None.
Proof.
  intros Hbody Hbound i s Hi.
  destruct (Tint_for fuel i bound body s) as [s'|] eqn:H; [|reflexivity].
  apply Tint_for_finished in H as [_ H]; [|assumption|assumption].
  destruct H as [H _]; lia.
Qed.

End TintLoop.

(* ================================================================== *)
(** * The constructor *)
(* ================================================================== *)

Lemma iterations_from_0 (m : nat) : iterations 0 (Z.of_nat m) = seq 0 m.
Proof.
  unfold iterations. rewrite Z.sub_0_r, Nat2Z.id. reflexivity.
Qed.

Lemma iterations_from_0_sub (n k : nat) :
  iterations 0 (Z.of_nat n - Z.of_nat k) = seq 0 (n - k).
Proof.
  unfold iterations. rewrite Z.sub_0_r.
  replace (Z.to_nat (Z.of_nat n - Z.of_nat k)) with (n - k)%nat by lia.
  reflexivity.
Qed.

(** Case analysis on the comparisons of natural numbers in the goal. *)
Ltac nat_cases :=
  repeat match goal with
    | |- context [Nat.leb ?x ?y] => destruct (Nat.leb_spec x y)
    | |- context [Nat.ltb ?x ?y] => destruct (Nat.ltb_spec x y)
    | |- context [Nat.eqb ?x ?y] => destruct (Nat.eqb_spec x y)
    end; cbn [andb orb negb].

Lemma length_array_set (a : list Z) : forall i x,
  length (array_set a i x) = length a.
Proof.
  induction a as [|y a IH]; intros [|i] x; simpl; auto.
Qed.

Lemma array_get_set (a : list Z) : forall i j x,
  array_get (array_set a i x) j
  = if Nat.eqb i j && Nat.ltb i (length a) then x else array_get a j.
Proof.
  unfold array_get.
  induction a as [|y a IH]; intros [|i] [|j] x; simpl; try reflexivity.
  - rewrite andb_false_r. reflexivity.
  - rewrite IH. reflexivity.
Qed.

(** Storing [v i] into slot [i] for each [i] of [seq lo len]. *)
Lemma fill_slots (v : nat -> Z) (len : nat) : forall lo a j,
  (lo + len <= length a)%nat ->
  let a' := fold_left (fun bs i => array_set bs i (v i)) (seq lo len) a in
  length a' = length a
  /\ array_get a' j
     = if Nat.leb lo j && Nat.ltb j (lo + len) then v j else array_get a j.
Proof.
  induction len as [|len IH]; intros lo a j Hlen; cbn [seq fold_left].
  - split; [reflexivity|]. nat_cases; reflexivity || lia.
  - specialize (IH (S lo) (array_set a lo (v lo)) j).
    rewrite length_array_set in IH. specialize (IH ltac:(lia)).
    cbv zeta in IH. destruct IH as [IHl IHg]. split; [exact IHl|].
    rewrite IHg, array_get_set.
    nat_cases; subst; reflexivity || lia.
Qed.

Lemma fill_all_slots (v : nat -> Z) (m : nat) :
  fold_left (fun bs i => array_set bs i (v i)) (seq 0 m) (repeat 0 m)
  = map v (seq 0 m).
Proof.
  pose proof (fill_slots v m 0 (repeat 0 m)) as H.
  rewrite repeat_length in H.
  apply nth_ext with (d := 0) (d' := 0).
  - destruct (H 0%nat ltac:(lia)) as [Hl _]. simpl in Hl.
    rewrite Hl, length_map, length_seq. reflexivity.
  - intros j Hj. destruct (H j ltac:(lia)) as [Hl Hg]. simpl in Hl, Hg.
    rewrite Hl in Hj. unfold array_get in Hg. rewrite Hg.
    nat_cases; try lia.
    rewrite (nth_indep _ 0 (v 0%nat)) by (rewrite length_map, length_seq; lia).
    rewrite map_nth, seq_nth by lia. reflexivity.
Qed.

Lemma block_product_finished (n k fuel : nat) (d : list Z) (c : Combination)
    (p : Z) :
  block_product n k fuel d c = Some p ->
  p = block_value n k d c
  /\ Z.of_nat k < Tint_modulus
  /\ Z.of_nat n - Z.of_nat k < Tint_modulus.
Proof.
  unfold block_product.
  destruct (Tint_for fuel 0 (Z.of_nat k) _ 1) as [p1|] eqn:H1; [|discriminate].
  intros H2.
  apply Tint_for_finished
    with (f := fun j p => to_Bint (p * array_get d (in_ c j)))
    in H1 as [-> Hk];
    [|intros j s s' [= <-]; reflexivity|rewrite Tint_modulus_eq; lia].
  apply Tint_for_finished
    with (f := fun j p => to_Bint (p * (1 + array_get d (out_ n c j))))
    in H2 as [-> Hnk];
    [|intros j s s' [= <-]; reflexivity|rewrite Tint_modulus_eq; lia].
  unfold counted. rewrite iterations_from_0, iterations_from_0_sub.
  split; [reflexivity|]. rewrite Tint_modulus_eq in *. split.
  - destruct k; [lia|]. apply Hk. lia.
  - destruct (Z.ltb_spec 0 (Z.of_nat n - Z.of_nat k)) as [H|H]; [|lia].
    apply Hnk. exact H.
Qed.

Lemma block_product_finishes (n k fuel : nat) (d : list Z) (c : Combination) :
  Z.of_nat k < Tint_modulus ->
  Z.of_nat n - Z.of_nat k < Tint_modulus ->
  (Z.to_nat Tint_modulus < fuel)%nat ->
  block_product n k fuel d c = Some (block_value n k d c).
Proof.
  intros Hk Hnk Hfuel. unfold block_product.
  rewrite Tint_for_finishes
    with (f := fun j p => to_Bint (p * array_get d (in_ c j)));
    [|reflexivity|exact Hk|lia|rewrite Tint_modulus_eq in *; lia].
  rewrite Tint_for_finishes
    with (f := fun j p => to_Bint (p * (1 + array_get d (out_ n c j))));
    [|reflexivity|exact Hnk|lia|rewrite Tint_modulus_eq in *; lia].
  unfold counted. rewrite iterations_from_0, iterations_from_0_sub.
  reflexivity.
Qed.

Lemma binomial_pos (n : nat) : forall k, (k <= n)%nat -> (0 < binomial n k)%nat.
Proof.
  induction n as [|n IH]; intros [|k] H; simpl; try lia.
  specialize (IH k ltac:(lia)). lia.
Qed.

(** An enumerator that was constructed is [built n k d], and then the
    loop bounds were values of the counter type. *)
Lemma ctor_finished (n k fuel : nat) (d : list Z) (L : Lexicographic) :
  Lexicographic_ctor n k fuel d = Some L ->
  L = built n k d
  /\ Z.of_nat (binomial n k) < Tint_modulus
  /\ ((k <= n)%nat -> counters_fit n k).
Proof.
  unfold Lexicographic_ctor.
  destruct (Tint_for fuel 0 _ _ _) as [bs|] eqn:H; [|discriminate].
  intros [= <-].
  apply Tint_for_finished
    with (f := fun i bs => array_set bs i (block_value n k d (get n k i)))
    in H as [-> Hb].
  - unfold counted. rewrite iterations_from_0, fill_all_slots.
    split; [reflexivity|]. split.
    + destruct (binomial n k); [reflexivity|]. apply Hb. lia.
    + intros Hkn. pose proof (binomial_pos n k Hkn) as Hpos.
      destruct Hb as [Hb [bs Hbs]]; [lia|].
      destruct (block_product n k fuel d _) as [p|] eqn:Hp; [|discriminate].
      apply block_product_finished in Hp as (_ & Hk & Hnk).
      repeat split; assumption.
  - intros j s s' Hs.
    destruct (block_product n k fuel d _) as [p|] eqn:Hp; [|discriminate].
    apply block_product_finished in Hp as (-> & _). congruence.
  - rewrite Tint_modulus_eq; lia.
Qed.

(** The constructor returns when the loop bounds are counter values. *)
Lemma ctor_finishes (n k fuel : nat) (d : list Z) :
  counters_fit n k -> (Z.to_nat Tint_modulus < fuel)%nat ->
  Lexicographic_ctor n k fuel d = Some (built n k d).
Proof.
  intros (Hb & Hk & Hnk) Hfuel. unfold Lexicographic_ctor.
  rewrite Tint_for_finishes
    with (f := fun i bs => array_set bs i (block_value n k d (get n k i))).
  - unfold counted. rewrite iterations_from_0, fill_all_slots. reflexivity.
  - intros j s Hj. rewrite block_product_finishes by assumption.
    reflexivity.
  - exact Hb.
  - lia.
  - rewrite Tint_modulus_eq in *; lia.
Qed.

(** Otherwise a counter wraps around below its bound, and the
    constructor does not return. *)
Lemma ctor_loops_forever (n k fuel : nat) (d : list Z) :
  (k <= n)%nat -> ~ counters_fit n k -> Lexicographic_ctor n k fuel d = None.
Proof.
  intros Hkn Hfit.
  destruct (Lexicographic_ctor n k fuel d) as [L|] eqn:H; [|reflexivity].
  apply ctor_finished in H as (_ & _ & H). elim Hfit. auto.
Qed.

Lemma scale_loop (g : nat -> Z) (l : list nat) : forall p,
  0 <= p < Bint_modulus ->
  fold_left (fun p j => to_Bint (p * g j)) l p
  = to_Bint (p * prod_Z (map g l)).
Proof.
  induction l as [|j l IH]; intros p Hp; simpl.
  - rewrite Z.mul_1_r, to_Bint_small by exact Hp. reflexivity.
  - rewrite IH by apply to_Bint_range.
    rewrite to_Bint_mul_l. f_equal. ring.
Qed.

(** The stored block size is the number of cells of the block, reduced
    to a [Bint]. *)
Lemma block_value_cells (n k : nat) (d : list Z) (b : nat) :
  block_value n k d (get n k b) = to_Bint (block_cells n k d b).
Proof.
  unfold block_value, block_cells.
  rewrite (scale_loop (fun j => array_get d (in_ (get n k b) j)))
    by (rewrite Bint_modulus_eq; lia).
  rewrite (scale_loop (fun j => 1 + array_get d (out_ n (get n k b) j)))
    by apply to_Bint_range.
  rewrite to_Bint_mul_l, Z.mul_1_l. f_equal. f_equal.
  apply f_equal, map_ext. intros j. unfold across_radix. ring.
Qed.

(* ================================================================== *)
(** * Mixed-radix digits *)
(* ================================================================== *)

Lemma map_array_get (a : list Z) : map (array_get a) (seq 0 (length a)) = a.
Proof.
  apply nth_ext with (d := 0) (d' := 0).
  - rewrite length_map, length_seq. reflexivity.
  - intros j Hj. rewrite length_map, length_seq in Hj.
    rewrite (nth_indep _ 0 (array_get a 0%nat))
      by (rewrite length_map, length_seq; lia).
    rewrite map_nth, seq_nth by lia. reflexivity.
Qed.

Lemma map_array_get_all (a : list Z) (m : nat) :
  length a = m -> map (array_get a) (seq 0 m) = a.
Proof. intros <-. apply map_array_get. Qed.

Lemma map_array_get_firstn (a : list Z) (m : nat) :
  (m <= length a)%nat -> map (array_get a) (seq 0 m) = firstn m a.
Proof.
  intros Hm. apply nth_ext with (d := 0) (d' := 0).
  - rewrite length_map, length_seq, length_firstn. lia.
  - intros j Hj. rewrite length_map, length_seq in Hj.
    rewrite (nth_indep _ 0 (array_get a 0%nat))
      by (rewrite length_map, length_seq; lia).
    rewrite map_nth, seq_nth, nth_firstn by lia.
    destruct (Nat.ltb_spec j m); [reflexivity|lia].
Qed.

Lemma mixed_radix_app (rs1 : list Z) : forall ds1 rs2 ds2,
  length ds1 = length rs1 ->
  mixed_radix (rs1 ++ rs2) (ds1 ++ ds2)
  = mixed_radix rs1 ds1 + prod_Z rs1 * mixed_radix rs2 ds2.
Proof.
  induction rs1 as [|r rs1 IH]; intros [|a ds1] rs2 ds2 Hl;
    try discriminate; simpl.
  - destruct (mixed_radix rs2 ds2); reflexivity.
  - rewrite IH by (simpl in Hl; lia). ring.
Qed.

(** Digits below their radices give a value below the product. *)
Lemma mixed_radix_bound (rs : list Z) : forall ds,
  Forall2 (fun a r => 0 <= a < r) ds rs ->
  0 <= mixed_radix rs ds < prod_Z rs.
Proof.
  induction rs as [|r rs IH]; intros ds H; inversion H; subst; simpl.
  - lia.
  - match goal with Hd : Forall2 _ _ rs |- _ => apply IH in Hd end. nia.
Qed.

(** Smaller radices give a smaller value. *)
Lemma mixed_radix_mono (rs : list Z) : forall rs' ds,
  Forall2 (fun r' r => 0 <= r' <= r) rs' rs ->
  Forall2 (fun a r => 0 <= a < r) ds rs ->
  0 <= mixed_radix rs' ds <= mixed_radix rs ds.
Proof.
  induction rs as [|r rs IH]; intros rs' ds Hr Hd;
    inversion Hr; inversion Hd; subst; simpl.
  - lia.
  - match goal with
      H1 : Forall2 _ _ rs, H2 : Forall2 _ _ rs |- _ =>
        pose proof (IH _ _ H1 H2)
    end. nia.
Qed.

Lemma split_digits_length (fdim_of : nat -> Z) (idxs : list nat) :
  forall index ds q,
    split_digits fdim_of idxs index = Some (ds, q) ->
    length ds = length idxs.
Proof.
  induction idxs as [|i idxs IH]; intros index ds q; simpl.
  - intros [= <- _]. reflexivity.
  - destruct (fdim_of i =? 0); [discriminate|].
    destruct (split_digits fdim_of idxs _) as [[ds' q']|] eqn:H;
      [|discriminate].
    intros [= <- _]. simpl. f_equal. eapply IH, H.
Qed.

(** With nonzero radices the digit loop returns the digits of
    [index mod (product of the radices)] and leaves the quotient. *)
Lemma split_digits_value (fdim_of : nat -> Z) (idxs : list nat) :
  Forall (fun r => 0 < r <= Sint_modulus) (map fdim_of idxs) ->
  forall index, 0 <= index ->
    exists ds,
      split_digits fdim_of idxs index
      = Some (ds, index / prod_Z (map fdim_of idxs))
      /\ mixed_radix (map fdim_of idxs) ds
         = index mod prod_Z (map fdim_of idxs)
      /\ Forall2 (fun a r => 0 <= a < r) ds (map fdim_of idxs).
Proof.
  induction idxs as [|i idxs IH]; intros Hr index Hindex; simpl.
  - exists []. rewrite Z.div_1_r, Z.mod_1_r. repeat split. constructor.
  - simpl in Hr. inversion Hr as [|? ? Hi Hr']; subst.
    destruct (Z.eqb_spec (fdim_of i) 0) as [H0|_]; [lia|].
    assert (Hq : 0 <= index / fdim_of i) by (apply Z.div_pos; lia).
    destruct (IH Hr' _ Hq) as (ds & Hs & Hv & Hb).
    rewrite Hs. exists (to_Sint (index mod fdim_of i) :: ds).
    pose proof (Z.mod_pos_bound index (fdim_of i) ltac:(lia)) as Hm.
    rewrite to_Sint_small by lia.
    assert (Hp : 0 < prod_Z (map fdim_of idxs)).
    { assert (1 <= prod_Z (map fdim_of idxs)); [|lia].
      apply prod_Z_pos. eapply Forall_impl; [|exact Hr']. simpl. lia. }
    repeat split.
    + rewrite Z.div_div by lia. reflexivity.
    + simpl. rewrite Hv. rewrite Z.rem_mul_r by lia. reflexivity.
    + constructor; [lia|exact Hb].
Qed.

(** A zero radix makes the digit loop divide by zero. *)
Lemma split_digits_zero (fdim_of : nat -> Z) (idxs : list nat) :
  Exists (fun r => r = 0) (map fdim_of idxs) ->
  forall index, split_digits fdim_of idxs index = None.
Proof.
  induction idxs as [|i idxs IH]; intros H index; simpl in *.
  - inversion H.
  - destruct (Z.eqb_spec (fdim_of i) 0) as [H0|Hne]; [reflexivity|].
    inversion H; subst; [contradiction|].
    rewrite IH by assumption. reflexivity.
Qed.

(** The digit loop recovers digits that are below their radices. *)
Lemma split_digits_mixed_radix (fdim_of : nat -> Z) (idxs : list nat) :
  forall ds q,
    Forall2 (fun a r => 0 <= a < r) ds (map fdim_of idxs) ->
    Forall (fun r => r <= Sint_modulus) (map fdim_of idxs) ->
    split_digits fdim_of idxs
      (mixed_radix (map fdim_of idxs) ds + prod_Z (map fdim_of idxs) * q)
    = Some (ds, q).
Proof.
  induction idxs as [|i idxs IH]; intros ds q Hd Hr; cbn [map] in *.
  - inversion Hd; subst. cbn [split_digits mixed_radix].
    change (prod_Z []) with 1. do 2 f_equal. lia.
  - inversion Hd as [|a ? ds' ? Ha Hd']; subst.
    inversion Hr as [|? ? Hi Hr']; subst.
    cbn [split_digits mixed_radix].
    change (prod_Z (fdim_of i :: map fdim_of idxs))
      with (fdim_of i * prod_Z (map fdim_of idxs)).
    destruct (Z.eqb_spec (fdim_of i) 0) as [H0|_]; [lia|].
    set (r := fdim_of i) in *. set (P := prod_Z (map fdim_of idxs)).
    set (v := mixed_radix (map fdim_of idxs) ds').
    replace (a + r * v + r * P * q) with (a + (v + P * q) * r) by ring.
    rewrite Z.div_add, Z.div_small, Z.add_0_l by lia.
    rewrite Z.mod_add, Z.mod_small by lia.
    unfold v, P. rewrite IH by assumption.
    rewrite to_Sint_small by lia. reflexivity.
Qed.

(** The accumulation loop adds [factor] times the mixed-radix value of
    the digits, in [Bint] arithmetic. *)
Lemma add_digits_value (fdim_of : nat -> Z) (position : list Z)
    (idxs : list nat) :
  forall result factor,
    add_digits fdim_of position idxs (to_Bint result) (to_Bint factor)
    = (to_Bint (result
                + factor * mixed_radix (map fdim_of idxs)
                             (map (array_get position) idxs)),
       to_Bint (factor * prod_Z (map fdim_of idxs))).
Proof.
  induction idxs as [|i idxs IH]; intros result factor; simpl.
  - rewrite Z.mul_0_r, Z.add_0_r, Z.mul_1_r. reflexivity.
  - rewrite to_Bint_mul_r, to_Bint_add_r, to_Bint_add_l, to_Bint_mul_l.
    rewrite IH. f_equal; f_equal; ring.
Qed.

(* ================================================================== *)
(** * Sizes and the location of a block *)
(* ================================================================== *)

Lemma sum_loop (l : list Z) : forall s,
  fold_left (fun sum x => to_Bint (sum + x)) l (to_Bint s)
  = to_Bint (s + sum_Z l).
Proof.
  induction l as [|x l IH]; intros s; simpl.
  - rewrite Z.add_0_r. reflexivity.
  - rewrite to_Bint_add_l, IH. f_equal. ring.
Qed.

(** [size()] is the sum of the stored block sizes, reduced to a [Bint]. *)
Lemma size_sum (L : Lexicographic) : size L = to_Bint (sum_Z (block_sizes L)).
Proof.
  unfold size. change 0 with (to_Bint 0) at 1. apply sum_loop.
Qed.

Lemma indexed_sum_loop (g : nat -> Z) (l : list nat) : forall s,
  fold_left (fun result i => to_Bint (result + g i)) l (to_Bint s)
  = to_Bint (s + sum_Z (map g l)).
Proof.
  induction l as [|i l IH]; intros s; simpl.
  - rewrite Z.add_0_r. reflexivity.
  - rewrite to_Bint_add_l, IH. f_equal. ring.
Qed.

Lemma sum_firstn_le (l : list Z) : Forall (fun x => 0 <= x) l ->
  forall j, 0 <= sum_Z (firstn j l) <= sum_Z l.
Proof.
  induction 1 as [|x l Hx Hl IH]; intros [|j]; simpl; try lia.
  - pose proof (sum_Z_nonneg l Hl). lia.
  - specialize (IH j). lia.
Qed.

Lemma sum_firstn_S (l : list Z) : forall j, (j < length l)%nat ->
  sum_Z (firstn (S j) l) = sum_Z (firstn j l) + nth j l 0.
Proof.
  induction l as [|x l IH]; intros [|j] Hj; simpl in *; try lia.
  rewrite <- Z.add_assoc, <- IH by lia. reflexivity.
Qed.

(** Every index below the sum of the sizes lies in exactly one block. *)
Lemma block_exists (l : list Z) : Forall (fun x => 0 <= x) l ->
  forall index, 0 <= index < sum_Z l ->
    exists j, (j < length l)%nat
              /\ sum_Z (firstn j l) <= index < sum_Z (firstn (S j) l).
Proof.
  induction 1 as [|x l Hx Hl IH]; intros index Hi; simpl in *; [lia|].
  destruct (Z.ltb_spec index x) as [Hlt|Hge].
  - exists 0%nat. simpl. split; lia.
  - destruct (IH (index - x) ltac:(lia)) as (j & Hj & Hb).
    exists (S j). split; [lia|]. simpl in *. lia.
Qed.

(** The [while] loop stops at the block that contains the index. *)
Lemma find_block_located (l : list Z) : Forall (fun x => 0 <= x) l ->
  forall j b index, (j < length l)%nat -> index < Bint_modulus ->
    sum_Z (firstn j l) <= index < sum_Z (firstn (S j) l) ->
    find_block l b index = ((b + j)%nat, index - sum_Z (firstn j l)).
Proof.
  induction 1 as [|x l Hx Hl IH]; intros j b index Hj Hi Hb; simpl in *;
    [lia|].
  destruct j as [|j]; simpl in *.
  - destruct (Z.ltb_spec index x); [|lia].
    rewrite Nat.add_0_r, Z.sub_0_r. reflexivity.
  - pose proof (sum_firstn_le l Hl j).
    destruct (Z.ltb_spec index x); [lia|].
    rewrite to_Bint_small by lia.
    rewrite (IH j (S b) (index - x)) by (simpl in *; lia).
    f_equal; lia.
Qed.

(** The [while] loop runs off the end for an index beyond all blocks. *)
Lemma find_block_beyond (l : list Z) : Forall (fun x => 0 <= x) l ->
  forall b index, sum_Z l <= index < Bint_modulus ->
    find_block l b index = ((b + length l)%nat, index - sum_Z l).
Proof.
  induction 1 as [|x l Hx Hl IH]; intros b index Hi; simpl in *.
  - rewrite Nat.add_0_r, Z.sub_0_r. reflexivity.
  - pose proof (sum_Z_nonneg l Hl).
    destruct (Z.ltb_spec index x); [lia|].
    rewrite to_Bint_small by lia.
    rewrite IH by lia. f_equal; lia.
Qed.

Lemma built_sizes_nonneg (n k : nat) (d : list Z) :
  Forall (fun x => 0 <= x) (block_sizes (built n k d)).
Proof.
  simpl. apply Forall_forall. intros x Hx.
  apply in_map_iff in Hx as (b & <- & _).
  rewrite block_value_cells. apply to_Bint_range.
Qed.

Lemma built_length (n k : nat) (d : list Z) :
  length (block_sizes (built n k d)) = binomial n k.
Proof. simpl. rewrite length_map, length_seq. reflexivity. Qed.

Lemma built_block (n k : nat) (d : list Z) (b : nat) :
  (b < binomial n k)%nat ->
  nth b (block_sizes (built n k d)) 0 = to_Bint (block_cells n k d b).
Proof.
  intros Hb. simpl.
  rewrite (nth_indep _ 0 (block_value n k d (get n k 0)))
    by (rewrite length_map, length_seq; lia).
  rewrite (map_nth (fun b => block_value n k d (get n k b))).
  rewrite seq_nth by lia. apply block_value_cells.
Qed.

(* ================================================================== *)
(** * Encoding and decoding in a block *)
(* ================================================================== *)

Lemma fdim_along_built (n k : nat) (d : list Z) (c : Combination) (j : nat) :
  fdim_along (built n k d) c j = to_Tint (along_radix d c j).
Proof. reflexivity. Qed.

Lemma fdim_across_built (n k : nat) (d : list Z) (c : Combination) (j : nat) :
  fdim_across n (built n k d) c j = to_Tint (across_radix n d c j).
Proof.
  unfold fdim_across, across_radix. cbn [built dimensions].
  f_equal. apply Z.add_comm.
Qed.

(** The radices in use are the radices of the block reduced to [Tint]. *)
Lemma block_fdims_built (n k : nat) (d : list Z) (c : Combination) :
  block_fdims n k (built n k d) c = map to_Tint (block_radices n k d c).
Proof.
  unfold block_fdims, block_radices. rewrite map_app, !map_map.
  f_equal. apply map_ext. intros j. apply fdim_across_built.
Qed.

Lemma block_cells_radices (n k : nat) (d : list Z) (b : nat) :
  block_cells n k d b = prod_Z (block_radices n k d (get n k b)).
Proof. unfold block_cells, block_radices. rewrite prod_Z_app. reflexivity. Qed.

Lemma block_fdims_range (n k : nat) (L : Lexicographic) (c : Combination) :
  Forall (fun r => 0 <= r < Tint_modulus) (block_fdims n k L c).
Proof.
  unfold block_fdims. apply Forall_app. split;
    apply Forall_forall; intros r Hr; apply in_map_iff in Hr as (j & <- & _);
    apply to_Tint_range.
Qed.

(** The value returned by [index], for any element: the sum of the
    entries of [block_sizes] that the first loop reads plus the
    mixed-radix value of the digits as they are, with the radices in use,
    reduced to a [Bint]. *)
Lemma index_formula (n k : nat) (L : Lexicographic) (e : Element) :
  index n k L e
  = to_Bint (sum_Z (map (array_get (block_sizes L))
                      (seq 0 (Combinations.index n k (directions e))))
             + mixed_radix (block_fdims n k L (directions e))
                 (digits_of n k e)).
Proof.
  unfold index. change 0 with (to_Bint 0) at 1.
  rewrite (indexed_sum_loop (array_get (block_sizes L))), Z.add_0_l.
  change 1 with (to_Bint 1) at 1. rewrite add_digits_value.
  rewrite add_digits_value.
  unfold block_fdims, digits_of.
  rewrite mixed_radix_app by (rewrite !length_map; reflexivity).
  f_equal. ring.
Qed.

(** For an element of one of the blocks, the first summand is the sum
    of the stored sizes of the blocks before. *)
Lemma index_value (n k : nat) (L : Lexicographic) (e : Element) :
  (Combinations.index n k (directions e) <= length (block_sizes L))%nat ->
  index n k L e
  = to_Bint (stored_before L (Combinations.index n k (directions e))
             + mixed_radix (block_fdims n k L (directions e))
                 (digits_of n k e)).
Proof.
  intros Hci. rewrite index_formula. unfold stored_before.
  rewrite map_array_get_firstn by exact Hci. reflexivity.
Qed.

Lemma stored_before_S (n k : nat) (d : list Z) (b : nat) :
  (b < binomial n k)%nat ->
  stored_before (built n k d) (S b)
  = stored_before (built n k d) b + to_Bint (block_cells n k d b).
Proof.
  intros Hb. unfold stored_before.
  rewrite sum_firstn_S by (rewrite built_length; exact Hb).
  rewrite built_block by exact Hb. reflexivity.
Qed.

(** [operator[]] on an index that lies in block [b]. *)
Lemma decode_located (n k : nat) (d : list Z) (b : nat) (i : Z) :
  let L := built n k d in
  let c := get n k b in
  (b < binomial n k)%nat -> i < Bint_modulus ->
  stored_before L b <= i < stored_before L (S b) ->
  operator_brackets n k L i
  = match split_digits (fdim_along L c) (seq 0 k) (i - stored_before L b) with
    | None => DivisionByZero
    | Some (along, q) =>
        match split_digits (fdim_across n L c) (seq 0 (n - k)) q with
        | None => DivisionByZero
        | Some (across, _) =>
            Returned {| directions := c;
                        position_along := along;
                        position_across := across |}
        end
    end.
Proof.
  intros L c Hb Hi Hloc. subst L c. unfold operator_brackets.
  unfold stored_before in *.
  rewrite (find_block_located _ (built_sizes_nonneg n k d) b)
    by (try rewrite built_length; assumption).
  rewrite Nat.add_0_l, built_length.
  destruct (Nat.eqb_spec b (binomial n k)); [lia|].
  reflexivity.
Qed.

(** [operator[]] on an index beyond all blocks throws. *)
Lemma decode_beyond (n k : nat) (d : list Z) (i : Z) :
  let L := built n k d in
  sum_Z (block_sizes L) <= i < Bint_modulus ->
  operator_brackets n k L i = Thrown (Z.of_nat (binomial n k)).
Proof.
  intros L Hi. subst L. unfold operator_brackets.
  rewrite (find_block_beyond _ (built_sizes_nonneg n k d)) by exact Hi.
  rewrite Nat.add_0_l, Nat.eqb_refl, built_length. reflexivity.
Qed.

(** With nonzero radices, [operator[]] returns an element of the block
    whose digits have the value of the local index modulo the product of
    the radices in use. *)
Lemma decode_returns (n k : nat) (d : list Z) (b : nat) (i : Z) :
  let L := built n k d in
  let c := get n k b in
  (b < binomial n k)%nat -> i < Bint_modulus ->
  stored_before L b <= i < stored_before L (S b) ->
  Forall (fun r => 0 < r) (block_fdims n k L c) ->
  exists e,
    operator_brackets n k L i = Returned e
    /\ directions e = c
    /\ length (position_along e) = k
    /\ length (position_across e) = (n - k)%nat
    /\ mixed_radix (block_fdims n k L c)
         (position_along e ++ position_across e)
       = (i - stored_before L b) mod prod_Z (block_fdims n k L c).
Proof.
  intros L c Hb Hi Hloc Hpos.
  subst L c. rewrite (decode_located n k d b i Hb Hi Hloc).
  set (L := built n k d) in *. set (c := get n k b) in *.
  pose proof (block_fdims_range n k L c) as Hrange.
  unfold block_fdims in *. apply Forall_app in Hpos as [Hpa Hpc].
  apply Forall_app in Hrange as [Hra Hrc].
  set (l := i - stored_before L b). assert (Hl : 0 <= l) by (unfold l; lia).
  assert (Hsa : Forall (fun r => 0 < r <= Sint_modulus)
                  (map (fdim_along L c) (seq 0 k))).
  { rewrite Forall_forall in *. intros r Hr.
    specialize (Hpa r Hr). specialize (Hra r Hr).
    rewrite Tint_modulus_eq in Hra. rewrite Sint_modulus_eq. lia. }
  assert (Hsc : Forall (fun r => 0 < r <= Sint_modulus)
                  (map (fdim_across n L c) (seq 0 (n - k)))).
  { rewrite Forall_forall in *. intros r Hr.
    specialize (Hpc r Hr). specialize (Hrc r Hr).
    rewrite Tint_modulus_eq in Hrc. rewrite Sint_modulus_eq. lia. }
  destruct (split_digits_value _ _ Hsa l Hl) as (along & Ha & Hva & Hba).
  assert (Hpa1 : 1 <= prod_Z (map (fdim_along L c) (seq 0 k))).
  { apply prod_Z_pos. eapply Forall_impl; [|exact Hpa]. simpl. lia. }
  assert (Hpc1 : 1 <= prod_Z (map (fdim_across n L c) (seq 0 (n - k)))).
  { apply prod_Z_pos. eapply Forall_impl; [|exact Hpc]. simpl. lia. }
  assert (Hq : 0 <= l / prod_Z (map (fdim_along L c) (seq 0 k)))
    by (apply Z.div_pos; lia).
  destruct (split_digits_value _ _ Hsc _ Hq) as (across & Hc & Hvc & Hbc).
  rewrite Ha, Hc. eexists. split; [reflexivity|]. simpl.
  pose proof (split_digits_length _ _ _ _ _ Ha) as Hla.
  pose proof (split_digits_length _ _ _ _ _ Hc) as Hlc.
  rewrite length_seq in Hla, Hlc.
  repeat split; try assumption.
  rewrite mixed_radix_app by (rewrite length_map, length_seq; exact Hla).
  rewrite Hva, Hvc, prod_Z_app. rewrite Z.rem_mul_r by lia. reflexivity.
Qed.

(** With a zero radix in use, [operator[]] divides by zero. *)
Lemma decode_divides_by_zero (n k : nat) (d : list Z) (b : nat) (i : Z) :
  let L := built n k d in
  let c := get n k b in
  (b < binomial n k)%nat -> i < Bint_modulus ->
  stored_before L b <= i < stored_before L (S b) ->
  Exists (fun r => r = 0) (block_fdims n k L c) ->
  operator_brackets n k L i = DivisionByZero.
Proof.
  intros L c Hb Hi Hloc Hz.
  subst L c. rewrite (decode_located n k d b i Hb Hi Hloc).
  set (L := built n k d) in *. set (c := get n k b) in *.
  unfold block_fdims in Hz. apply Exists_app in Hz as [Hz|Hz].
  - rewrite split_digits_zero by exact Hz. reflexivity.
  - destruct (split_digits (fdim_along L c) _ _) as [[along q]|];
      [|reflexivity].
    rewrite split_digits_zero by exact Hz. reflexivity.
Qed.

(* ================================================================== *)
(** * Round trips *)
(* ================================================================== *)

Lemma array_get_positive (d : list Z) (a : nat) :
  positive d -> (a < length d)%nat -> 1 <= array_get d a.
Proof.
  intros Hd Ha. unfold positive in Hd. rewrite Forall_forall in Hd.
  apply Hd. unfold array_get. apply nth_In. exact Ha.
Qed.

Lemma array_get_shape (n : nat) (d : list Z) (a : nat) :
  shape n d -> 0 <= array_get d a < Sint_modulus.
Proof.
  intros [Hl Hd]. rewrite Forall_forall in Hd. unfold array_get.
  destruct (Nat.ltb_spec a (length d)) as [Ha|Ha].
  - apply Hd. apply nth_In. exact Ha.
  - rewrite nth_overflow by exact Ha. rewrite Sint_modulus_eq. lia.
Qed.

(** The radices of a grid with positive dimensions are positive. *)
Lemma block_radices_positive (n k : nat) (d : list Z) (c : Combination) :
  length d = n -> positive d -> valid n k c ->
  Forall (fun r => 1 <= r) (block_radices n k d c).
Proof.
  intros Hl Hd Hc. unfold block_radices. apply Forall_app. split;
    apply Forall_forall; intros r Hr; apply in_map_iff in Hr as (j & <- & Hj);
    apply in_seq in Hj.
  - apply array_get_positive; [exact Hd|].
    rewrite Hl. apply (in_lt n k); [exact Hc|lia].
  - unfold across_radix.
    assert (1 <= array_get d (out_ n c j)); [|lia].
    apply array_get_positive; [exact Hd|].
    rewrite Hl. apply (out_lt n k); [exact Hc|lia].
Qed.

Lemma block_radices_nonneg (n k : nat) (d : list Z) (c : Combination) :
  shape n d -> Forall (fun r => 0 <= r) (block_radices n k d c).
Proof.
  intros Hd. unfold block_radices. apply Forall_app. split;
    apply Forall_forall; intros r Hr; apply in_map_iff in Hr as (j & <- & Hj).
  - apply (array_get_shape n d). exact Hd.
  - unfold across_radix.
    pose proof (array_get_shape n d (out_ n c j) Hd). lia.
Qed.

Lemma map_to_Tint_id (rs : list Z) :
  Forall (fun r => 0 <= r) rs -> Forall (fun r => r < Tint_modulus) rs ->
  map to_Tint rs = rs.
Proof.
  induction 1 as [|r rs Hr Hrs IH]; intros Hfit; simpl; [reflexivity|].
  inversion Hfit; subst. rewrite to_Tint_small, IH by (assumption || lia).
  reflexivity.
Qed.

(** When the radices fit, the radices in use are the radices of the
    block. *)
Lemma block_fdims_fit (n k : nat) (d : list Z) (b : nat) :
  shape n d -> radices_fit n k d -> (b < binomial n k)%nat ->
  block_fdims n k (built n k d) (get n k b)
  = block_radices n k d (get n k b).
Proof.
  intros Hd Hfit Hb. rewrite block_fdims_built. apply map_to_Tint_id.
  - apply (block_radices_nonneg n k d _ Hd).
  - apply Hfit, Hb.
Qed.

Lemma stored_before_nonneg (n k : nat) (d : list Z) (b : nat) :
  0 <= stored_before (built n k d) b <= sum_Z (block_sizes (built n k d)).
Proof. apply sum_firstn_le, built_sizes_nonneg. Qed.

(** Decoding an index of block [b] and encoding the element again gives
    the start of the block plus the local index modulo the product of
    the radices in use. *)
Lemma roundtrip_located (n k : nat) (d : list Z) (b : nat) (i : Z) :
  let L := built n k d in
  (b < binomial n k)%nat -> i < Bint_modulus ->
  stored_before L b <= i < stored_before L (S b) ->
  Forall (fun r => 0 < r) (block_fdims n k L (get n k b)) ->
  exists e,
    operator_brackets n k L i = Returned e
    /\ index n k L e
       = stored_before L b
         + (i - stored_before L b) mod prod_Z (block_fdims n k L (get n k b)).
Proof.
  intros L Hb Hi Hloc Hpos. subst L.
  destruct (decode_returns n k d b i Hb Hi Hloc Hpos)
    as (e & He & Hdir & Hla & Hlc & Hv).
  exists e. split; [exact He|].
  rewrite index_value; rewrite Hdir, (index_get n k b Hb);
    [|rewrite built_length; lia].
  unfold digits_of.
  rewrite (map_array_get_all _ _ Hla), (map_array_get_all _ _ Hlc), Hv.
  set (P := prod_Z _).
  assert (HP : 1 <= P).
  { apply prod_Z_pos. eapply Forall_impl; [|exact Hpos]. simpl. lia. }
  pose proof (stored_before_nonneg n k d b).
  pose proof (Z.mod_pos_bound (i - stored_before (built n k d) b) P
                ltac:(lia)).
  pose proof (Z.mod_le (i - stored_before (built n k d) b) P
                ltac:(lia) ltac:(lia)).
  apply to_Bint_small. lia.
Qed.

(** When the radices fit and the dimensions are positive, decoding any
    index below [size()] and encoding the element gives the index. *)
Lemma roundtrip_index (n k : nat) (d : list Z) (i : Z) :
  let L := built n k d in
  shape n d -> positive d -> radices_fit n k d ->
  0 <= i < size L ->
  exists e, operator_brackets n k L i = Returned e /\ index n k L e = i.
Proof.
  intros L Hd Hpos Hfit Hi. subst L.
  rewrite size_sum in Hi.
  pose proof (to_Bint_range (sum_Z (block_sizes (built n k d)))) as Hr.
  pose proof (stored_before_nonneg n k d 0) as H0.
  pose proof (to_Bint_le _ (proj2 H0)) as Hle. simpl in H0.
  destruct (block_exists _ (built_sizes_nonneg n k d) i ltac:(lia))
    as (b & Hb & Hloc).
  rewrite built_length in Hb.
  fold (stored_before (built n k d) b) in Hloc.
  fold (stored_before (built n k d) (S b)) in Hloc.
  assert (Hrs : Forall (fun r => 1 <= r) (block_radices n k d (get n k b))).
  { apply block_radices_positive; [apply Hd|exact Hpos|].
    apply get_valid, Hb. }
  destruct (roundtrip_located n k d b i Hb ltac:(lia) Hloc) as (e & He & Hidx).
  { rewrite block_fdims_fit by assumption.
    eapply Forall_impl; [|exact Hrs]. simpl. lia. }
  exists e. split; [exact He|]. rewrite Hidx.
  rewrite block_fdims_fit by assumption.
  rewrite <- block_cells_radices.
  rewrite stored_before_S in Hloc by exact Hb.
  assert (Hc : 1 <= block_cells n k d b).
  { rewrite block_cells_radices. apply prod_Z_pos, Hrs. }
  pose proof (to_Bint_le (block_cells n k d b) ltac:(lia)).
  rewrite Z.mod_small by lia. lia.
Qed.

(* ================================================================== *)
(** * Grids whose number of cells is a [Bint] *)
(* ================================================================== *)

Lemma block_cells_nonneg (n k : nat) (d : list Z) (b : nat) :
  shape n d -> 0 <= block_cells n k d b.
Proof.
  intros Hd. rewrite block_cells_radices.
  apply prod_Z_nonneg, (block_radices_nonneg n k d _ Hd).
Qed.

Lemma cells_before_S (n k : nat) (d : list Z) (b : nat) :
  cells_before n k d (S b) = cells_before n k d b + block_cells n k d b.
Proof.
  unfold cells_before. rewrite seq_S, map_app, sum_Z_app. simpl. ring.
Qed.

Lemma cells_before_mono (n k : nat) (d : list Z) (b : nat) :
  shape n d -> forall b', (b <= b')%nat ->
  0 <= cells_before n k d b <= cells_before n k d b'.
Proof.
  intros Hd b' Hb. induction Hb as [|b' Hb IH].
  - split; [|lia]. induction b as [|b IH]; [unfold cells_before; simpl; lia|].
    rewrite cells_before_S. pose proof (block_cells_nonneg n k d b Hd). lia.
  - rewrite cells_before_S. pose proof (block_cells_nonneg n k d b' Hd). lia.
Qed.

Lemma cells_before_total (n k : nat) (d : list Z) :
  cells_before n k d (binomial n k) = total_cells n k d.
Proof. reflexivity. Qed.

(** Without overflow, the stored sizes are the numbers of cells. *)
Lemma stored_cells (n k : nat) (d : list Z) (b : nat) :
  shape n d -> fits_Bint n k d -> (b < binomial n k)%nat ->
  to_Bint (block_cells n k d b) = block_cells n k d b.
Proof.
  intros Hd Hfit Hb. apply to_Bint_small.
  pose proof (block_cells_nonneg n k d b Hd).
  pose proof (cells_before_mono n k d (S b) Hd (binomial n k) Hb) as H1.
  pose proof (cells_before_mono n k d 0 Hd b ltac:(lia)) as H2.
  rewrite cells_before_S, cells_before_total in H1.
  unfold fits_Bint in Hfit. lia.
Qed.

Lemma stored_before_cells (n k : nat) (d : list Z) :
  shape n d -> fits_Bint n k d ->
  forall b, (b <= binomial n k)%nat ->
  stored_before (built n k d) b = cells_before n k d b.
Proof.
  intros Hd Hfit. induction b as [|b IH]; intros Hb; [reflexivity|].
  rewrite stored_before_S, cells_before_S, IH, stored_cells by (auto; lia).
  reflexivity.
Qed.

Lemma size_total (n k : nat) (d : list Z) :
  shape n d -> fits_Bint n k d -> size (built n k d) = total_cells n k d.
Proof.
  intros Hd Hfit. rewrite size_sum.
  rewrite <- (firstn_all (block_sizes (built n k d))).
  fold (stored_before (built n k d) (length (block_sizes (built n k d)))).
  rewrite built_length, stored_before_cells, cells_before_total by auto.
  apply to_Bint_small. split; [|exact Hfit].
  rewrite <- cells_before_total.
  apply (cells_before_mono n k d 0 Hd). lia.
Qed.

Lemma Forall2_map_same {A : Type} (P : Z -> Z -> Prop) (f g : A -> Z)
    (l : list A) :
  (forall x, In x l -> P (f x) (g x)) -> Forall2 P (map f l) (map g l).
Proof.
  induction l as [|x l IH]; intros H; simpl; constructor.
  - apply H. left; reflexivity.
  - apply IH. intros y Hy. apply H. right; exact Hy.
Qed.

(** The digits of a well-formed element are its two position arrays,
    and each digit is below the radix of its axis. *)
Lemma well_formed_digits (n k : nat) (d : list Z) (e : Element) :
  well_formed n k d e ->
  digits_of n k e = position_along e ++ position_across e
  /\ Forall2 (fun a r => 0 <= a < r) (digits_of n k e)
       (block_radices n k d (directions e)).
Proof.
  intros (_ & Hla & Hlc & Ha & Hc). unfold digits_of. split.
  - rewrite (map_array_get_all _ _ Hla), (map_array_get_all _ _ Hlc).
    reflexivity.
  - unfold block_radices. apply Forall2_app; apply Forall2_map_same;
      intros j Hj; apply in_seq in Hj.
    + apply Ha. lia.
    + apply Hc. lia.
Qed.

(** The radices in use never exceed the radices of the block. *)
Lemma block_fdims_le (n k : nat) (d : list Z) (c : Combination) :
  shape n d ->
  Forall2 (fun r' r => 0 <= r' <= r) (block_fdims n k (built n k d) c)
    (block_radices n k d c).
Proof.
  intros Hd. rewrite block_fdims_built.
  pose proof (block_radices_nonneg n k d c Hd) as H.
  induction H as [|r rs Hr Hrs IH]; simpl; constructor; [|exact IH].
  pose proof (to_Tint_range r). pose proof (to_Tint_le r Hr). lia.
Qed.

(** Without overflow, the index of a well-formed element lies in the
    range of indices of its block. *)
Lemma index_range (n k : nat) (d : list Z) (e : Element) :
  let L := built n k d in
  let ci := Combinations.index n k (directions e) in
  shape n d -> fits_Bint n k d -> well_formed n k d e ->
  index n k L e
  = cells_before n k d ci
    + mixed_radix (block_fdims n k L (directions e)) (digits_of n k e)
  /\ cells_before n k d ci <= index n k L e < cells_before n k d (S ci).
Proof.
  intros L ci Hd Hfit He. subst L ci.
  pose proof (well_formed_digits n k d e He) as [_ Hdig].
  destruct He as (Hv & _). apply get_index in Hv as [Hci Hget].
  set (ci := Combinations.index n k (directions e)) in *.
  rewrite index_value by (rewrite built_length; fold ci; lia). fold ci.
  rewrite stored_before_cells by (auto; lia).
  pose proof (mixed_radix_mono _ _ _ (block_fdims_le n k d (directions e) Hd)
                Hdig) as Hmono.
  pose proof (mixed_radix_bound _ _ Hdig) as Hbound.
  assert (Hcells : block_cells n k d ci
                   = prod_Z (block_radices n k d (directions e)))
    by (rewrite block_cells_radices, Hget; reflexivity).
  rewrite <- Hcells in Hbound.
  pose proof (cells_before_mono n k d 0 Hd ci ltac:(lia)) as H0.
  pose proof (cells_before_mono n k d (S ci) Hd (binomial n k) Hci) as H1.
  rewrite cells_before_total in H1. rewrite cells_before_S in *.
  unfold fits_Bint in Hfit.
  rewrite to_Bint_small by lia. split; [reflexivity|lia].
Qed.

Lemma fdims_pointwise (n k : nat) (d : list Z) (b : nat) :
  shape n d -> radices_fit n k d -> (b < binomial n k)%nat ->
  (forall j, (j < k)%nat ->
     fdim_along (built n k d) (get n k b) j = along_radix d (get n k b) j)
  /\ (forall j, (j < n - k)%nat ->
        fdim_across n (built n k d) (get n k b) j
        = across_radix n d (get n k b) j).
Proof.
  intros Hd Hfit Hb. specialize (Hfit b Hb).
  pose proof (block_radices_nonneg n k d (get n k b) Hd) as Hnn.
  unfold block_radices in *.
  apply Forall_app in Hfit as [Hfa Hfc]. apply Forall_app in Hnn as [Hna Hnc].
  rewrite Forall_forall in *. split; intros j Hj.
  - rewrite fdim_along_built. apply to_Tint_small.
    assert (Hin : In (along_radix d (get n k b) j)
                    (map (along_radix d (get n k b)) (seq 0 k)))
      by (apply in_map, in_seq; lia).
    split; [apply Hna|apply Hfa]; exact Hin.
  - rewrite fdim_across_built. apply to_Tint_small.
    assert (Hin : In (across_radix n d (get n k b) j)
                    (map (across_radix n d (get n k b)) (seq 0 (n - k))))
      by (apply in_map, in_seq; lia).
    split; [apply Hnc|apply Hfc]; exact Hin.
Qed.

(** Without overflow and with radices that fit, encoding a well-formed
    element and decoding the index gives the element. *)
Lemma roundtrip_element (n k : nat) (d : list Z) (e : Element) :
  let L := built n k d in
  shape n d -> radices_fit n k d -> fits_Bint n k d ->
  well_formed n k d e ->
  operator_brackets n k L (index n k L e) = Returned e.
Proof.
  intros L Hd Hrfit Hfit He. subst L.
  destruct (index_range n k d e Hd Hfit He) as [Hidx Hrange].
  pose proof (well_formed_digits n k d e He) as [Hdigits Hdig].
  destruct He as (Hv & Hla & Hlc & Ha & Hc).
  apply get_index in Hv as [Hci Hget].
  set (ci := Combinations.index n k (directions e)) in *.
  pose proof (cells_before_mono n k d (S ci) Hd (binomial n k) Hci) as H1.
  rewrite cells_before_total in H1. unfold fits_Bint in Hfit.
  assert (Hlt : index n k (built n k d) e < Bint_modulus) by lia.
  rewrite <- !stored_before_cells in Hrange by (auto; lia).
  rewrite (decode_located n k d ci _ Hci Hlt Hrange).
  rewrite stored_before_cells by (auto; lia).
  rewrite Hidx, Z.add_simpl_l, Hget.
  rewrite Hdigits. unfold block_fdims.
  rewrite mixed_radix_app by (rewrite length_map, length_seq; exact Hla).
  destruct (fdims_pointwise n k d ci Hd Hrfit Hci) as [Hfa Hfc].
  rewrite Hget in Hfa, Hfc.
  assert (Hd1 : Forall2 (fun a r => 0 <= a < r) (position_along e)
                  (map (fdim_along (built n k d) (directions e)) (seq 0 k))).
  { rewrite <- (map_array_get_all _ _ Hla) at 1.
    apply Forall2_map_same. intros j Hj. apply in_seq in Hj.
    rewrite Hfa by lia. apply Ha. lia. }
  assert (Hd2 : Forall2 (fun a r => 0 <= a < r) (position_across e)
                  (map (fdim_across n (built n k d) (directions e))
                     (seq 0 (n - k)))).
  { rewrite <- (map_array_get_all _ _ Hlc) at 1.
    apply Forall2_map_same. intros j Hj. apply in_seq in Hj.
    rewrite Hfc by lia. apply Hc. lia. }
  pose proof (block_fdims_range n k (built n k d) (directions e)) as Hrg.
  unfold block_fdims in Hrg. apply Forall_app in Hrg as [Hrg1 Hrg2].
  rewrite split_digits_mixed_radix; [|exact Hd1|].
  2:{ eapply Forall_impl; [|exact Hrg1]. simpl.
      rewrite Tint_modulus_eq, Sint_modulus_eq. lia. }
  rewrite <- (Z.add_0_r (mixed_radix _ (position_across e))).
  rewrite <- (Z.mul_0_r (prod_Z (map (fdim_across n (built n k d)
                                       (directions e)) (seq 0 (n - k))))).
  rewrite split_digits_mixed_radix; [|exact Hd2|].
  2:{ eapply Forall_impl; [|exact Hrg2]. simpl.
      rewrite Tint_modulus_eq, Sint_modulus_eq. lia. }
  destruct e; reflexivity.
Qed.

(* ================================================================== *)
(** * Radices that do not fit the type [Tint] *)
(* ================================================================== *)

Lemma prod_truncated_le (rs : list Z) :
  Forall (fun r => 1 <= r) rs -> Forall (fun r => 0 < r) (map to_Tint rs) ->
  1 <= prod_Z (map to_Tint rs) <= prod_Z rs.
Proof.
  induction 1 as [|r rs Hr Hrs IH]; intros Hpos; simpl in *; [lia|].
  inversion Hpos; subst. specialize (IH ltac:(assumption)).
  pose proof (to_Tint_le r ltac:(lia)). nia.
Qed.

(** Reducing a radix that does not fit makes the product smaller. *)
Lemma prod_truncated_lt (rs : list Z) :
  Forall (fun r => 1 <= r) rs ->
  Exists (fun r => ~ r < Tint_modulus) rs ->
  Forall (fun r => 0 < r) (map to_Tint rs) ->
  prod_Z (map to_Tint rs) < prod_Z rs.
Proof.
  induction 1 as [|r rs Hr Hrs IH]; intros Hex Hpos; simpl in *.
  - inversion Hex.
  - inversion Hpos as [|? ? Hp Hpos']; subst.
    pose proof (prod_truncated_le rs Hrs Hpos') as Hle.
    pose proof (to_Tint_le r ltac:(lia)) as Hr'.
    pose proof (to_Tint_range r) as Hrange.
    inversion Hex as [? ? Hbig|? ? Hex']; subst.
    + assert (to_Tint r < r) by lia. nia.
    + specialize (IH Hex' Hpos'). nia.
Qed.

(** If every index below [size()] survives the round trip, then every
    radix in use fits the type [Tint]. *)
Lemma roundtrip_needs_fit (n k : nat) (d : list Z) :
  let L := built n k d in
  shape n d -> positive d -> fits_Bint n k d ->
  (forall i, 0 <= i < size L ->
     exists e, operator_brackets n k L i = Returned e /\ index n k L e = i) ->
  radices_fit n k d.
Proof.
  intros L Hd Hpos Hfit Hround b Hb. subst L.
  set (rs := block_radices n k d (get n k b)).
  destruct (Forall_Exists_dec (fun r => r < Tint_modulus)
              (fun r => Z_lt_dec r Tint_modulus) rs) as [Hall|Hex];
    [exact Hall|exfalso].
  assert (Hrs : Forall (fun r => 1 <= r) rs).
  { apply block_radices_positive; [apply Hd|exact Hpos|].
    apply get_valid, Hb. }
  assert (Hcells : 1 <= block_cells n k d b).
  { rewrite block_cells_radices. apply prod_Z_pos, Hrs. }
  pose proof (cells_before_mono n k d 0 Hd b ltac:(lia)) as H0.
  pose proof (cells_before_mono n k d (S b) Hd (binomial n k) Hb) as H1.
  rewrite cells_before_total, cells_before_S in H1.
  pose proof (size_total n k d Hd Hfit) as Hsize.
  pose proof (stored_before_cells n k d Hd Hfit b ltac:(lia)) as Hsb.
  pose proof (stored_before_cells n k d Hd Hfit (S b) ltac:(lia)) as HsS.
  rewrite cells_before_S in HsS. unfold fits_Bint in Hfit.
  pose proof (block_fdims_built n k d (get n k b)) as Hfd. fold rs in Hfd.
  destruct (Forall_Exists_dec (fun r => 0 < r) (fun r => Z_lt_dec 0 r)
              (block_fdims n k (built n k d) (get n k b)))
    as [Hnz|Hz].
  - (* the index at distance (product of the radices in use) into the
       block comes back as the start of the block *)
    set (P := prod_Z (block_fdims n k (built n k d) (get n k b))).
    assert (HP : 1 <= P < block_cells n k d b).
    { unfold P. rewrite block_cells_radices. fold rs. rewrite Hfd in *.
      pose proof (prod_truncated_le rs Hrs Hnz).
      pose proof (prod_truncated_lt rs Hrs Hex Hnz). lia. }
    set (i := cells_before n k d b + P).
    destruct (Hround i) as (e & He & Hi); [rewrite Hsize; unfold i; lia|].
    destruct (roundtrip_located n k d b i Hb) as (e' & He' & Hi');
      [unfold i; lia|rewrite Hsb, HsS; unfold i; lia|exact Hnz|].
    rewrite He in He'. injection He' as <-.
    rewrite Hi in Hi'. rewrite Hsb in Hi'. fold P in Hi'.
    unfold i in Hi' at 2. rewrite Z.add_simpl_l, Z.mod_same in Hi' by lia.
    unfold i in Hi'. lia.
  - (* a radix in use is zero: the first index of the block divides by
       zero *)
    set (i := cells_before n k d b).
    destruct (Hround i) as (e & He & _); [rewrite Hsize; unfold i; lia|].
    rewrite (decode_divides_by_zero n k d b i Hb) in He;
      [discriminate|unfold i; lia|rewrite Hsb, HsS; unfold i; lia|].
    pose proof (block_fdims_range n k (built n k d) (get n k b)) as Hrange.
    apply Exists_exists in Hz as (r & Hr & Hr0). apply Exists_exists.
    exists r. split; [exact Hr|].
    rewrite Forall_forall in Hrange. specialize (Hrange r Hr). lia.
Qed.

(** Dimensions with [d[i] + 1] in [Tint] have radices that fit. *)
Lemma small_dimensions_fit (n k : nat) (d : list Z) :
  length d = n -> Forall (fun x => x + 1 < Tint_modulus) d ->
  radices_fit n k d.
Proof.
  intros Hl Hd b Hb. pose proof (get_valid n k b Hb) as Hv.
  rewrite Forall_forall in Hd.
  unfold block_radices. apply Forall_app. split;
    apply Forall_forall; intros r Hr; apply in_map_iff in Hr as (j & <- & Hj);
    apply in_seq in Hj.
  - assert (H : array_get d (in_ (get n k b) j) + 1 < Tint_modulus); [|unfold along_radix; lia].
    apply Hd. unfold array_get. apply nth_In.
    rewrite Hl. apply (in_lt n k); [exact Hv|lia].
  - apply Hd. unfold array_get. apply nth_In.
    rewrite Hl. apply (out_lt n k); [exact Hv|lia].
Qed.

(* ================================================================== *)
(** * Vertices, top-dimensional cells and empty blocks *)
(* ================================================================== *)

Lemma get_vertices (n : nat) : get n 0 0 = [].
Proof. unfold get. rewrite all_0. reflexivity. Qed.

Lemma get_top (n : nat) : get n n 0 = seq 0 n.
Proof. unfold get, all. rewrite enumerate_full. reflexivity. Qed.

(** For [k = 0] the single block has the radices [d[i] + 1]. *)
Lemma block_radices_vertices (n : nat) (d : list Z) :
  length d = n ->
  block_radices n 0 d (get n 0 0) = map (fun x => x + 1) d.
Proof.
  intros Hl. unfold block_radices. rewrite get_vertices, Nat.sub_0_r.
  simpl. rewrite <- (map_array_get_all d n Hl) at 2. rewrite map_map.
  apply map_ext_in. intros j Hj. apply in_seq in Hj.
  unfold across_radix, out_. rewrite complement_nil, seq_nth by lia.
  reflexivity.
Qed.

(** For [k = n] the single block has the radices [d[i]]. *)
Lemma block_radices_top (n : nat) (d : list Z) :
  length d = n -> block_radices n n d (get n n 0) = d.
Proof.
  intros Hl. unfold block_radices. rewrite get_top, Nat.sub_diag.
  simpl. rewrite app_nil_r. rewrite <- (map_array_get_all d n Hl) at 2.
  apply map_ext_in. intros j Hj. apply in_seq in Hj.
  unfold along_radix, in_. rewrite seq_nth by lia. reflexivity.
Qed.

Lemma size_single_block (n k : nat) (d : list Z) :
  binomial n k = 1%nat ->
  size (built n k d) = to_Bint (block_cells n k d 0).
Proof.
  intros H. rewrite size_sum. simpl. rewrite H. simpl.
  rewrite block_value_cells, Z.add_0_r. apply to_Bint_idem.
Qed.

Lemma prod_Z_zero (l : list Z) : In 0 l -> prod_Z l = 0.
Proof.
  induction l as [|x l IH]; simpl; [tauto|].
  intros [->|H]; [reflexivity|]. rewrite IH by exact H. ring.
Qed.

(** A block that extends along an axis of dimension zero has no cells. *)
Lemma block_cells_zero (n k : nat) (d : list Z) (b j : nat) :
  (j < k)%nat -> array_get d (in_ (get n k b) j) = 0 ->
  block_cells n k d b = 0.
Proof.
  intros Hj H0. unfold block_cells. rewrite (prod_Z_zero (map _ (seq 0 k))).
  - reflexivity.
  - apply in_map_iff. exists j. split; [exact H0|apply in_seq; lia].
Qed.

(* ================================================================== *)
(** * Which dimensions occur as radices *)
(* ================================================================== *)

Lemma filter_increasing (f : nat -> bool) (m : nat) :
  forall lo, increasing_from lo (filter f (seq lo m)).
Proof.
  induction m as [|m IH]; intros lo; simpl; [trivial|].
  destruct (f lo); simpl.
  - split; [lia|apply IH].
  - apply increasing_from_weaken with (S lo); [lia|apply IH].
Qed.

Lemma firstn_increasing (c : Combination) :
  forall lo j, increasing_from lo c -> increasing_from lo (firstn j c).
Proof.
  induction c as [|a c IH]; intros lo [|j] H; simpl in *; trivial.
  destruct H as [Ha H]. split; [exact Ha|apply IH, H].
Qed.

Lemma firstn_In (c : Combination) :
  forall j x, In x (firstn j c) -> In x c.
Proof.
  induction c as [|a c IH]; intros [|j] x H; simpl in *; try tauto.
  destruct H as [H|H]; [left; exact H|right; apply (IH j), H].
Qed.

(** For [k < n] every axis is an across-axis of some block. *)
Lemma axis_is_out (n k a : nat) :
  (k < n)%nat -> (a < n)%nat ->
  exists b j, (b < binomial n k)%nat /\ (j < n - k)%nat
              /\ out_ n (get n k b) j = a.
Proof.
  intros Hk Ha.
  set (c := firstn k (complement n [a])).
  assert (Hlen : length (complement n [a]) = (n - 1)%nat).
  { apply (complement_length n 1). repeat split; simpl; try lia.
    constructor; [exact Ha|constructor]. }
  assert (Hv : valid n k c).
  { unfold c. repeat split.
    - rewrite length_firstn. lia.
    - apply firstn_increasing. apply filter_increasing.
    - apply Forall_forall. intros x Hx. apply firstn_In in Hx.
      unfold complement in Hx. apply filter_In in Hx as [Hx _].
      apply in_seq in Hx. lia. }
  assert (Hout : In a (complement n c)).
  { unfold complement at 1. apply filter_In. split; [apply in_seq; lia|].
    apply negb_true_iff, not_true_is_false. intros H.
    apply existsb_exists in H as (x & Hx & Hxa). apply Nat.eqb_eq in Hxa.
    subst x. unfold c in Hx. apply firstn_In in Hx.
    unfold complement in Hx. apply filter_In in Hx as [_ Hx].
    simpl in Hx. rewrite Nat.eqb_refl in Hx. discriminate. }
  apply (In_nth _ _ 0%nat) in Hout as (j & Hj & Hnth).
  rewrite (complement_length n k c Hv) in Hj.
  destruct (get_index n k c Hv) as [Hb Hget].
  exists (Combinations.index n k c), j. repeat split; try assumption.
  unfold out_. rewrite Hget. exact Hnth.
Qed.

(** For [k < n] the radices fit exactly when [d[i] + 1] is a [Tint] for
    every axis. *)
Lemma radices_fit_below_top (n k : nat) (d : list Z) :
  length d = n -> (k < n)%nat ->
  radices_fit n k d <-> Forall (fun x => x + 1 < Tint_modulus) d.
Proof.
  intros Hl Hk. split; [|apply small_dimensions_fit, Hl].
  intros Hfit. apply Forall_forall. intros x Hx.
  apply (In_nth _ _ 0) in Hx as (a & Ha & <-). rewrite Hl in Ha.
  destruct (axis_is_out n k a Hk Ha) as (b & j & Hb & Hj & Hout).
  specialize (Hfit b Hb). unfold block_radices in Hfit.
  apply Forall_app in Hfit as [_ Hfit]. rewrite Forall_forall in Hfit.
  assert (Hin : In j (seq 0 (n - k))) by (apply in_seq; lia).
  specialize (Hfit _ (in_map (across_radix n d (get n k b)) _ _ Hin)).
  unfold across_radix, array_get in Hfit. rewrite Hout in Hfit.
  exact Hfit.
Qed.

(** For [k = n] the radices fit exactly when [d[i]] is a [Tint] for
    every axis. *)
Lemma radices_fit_top (n : nat) (d : list Z) :
  length d = n ->
  radices_fit n n d <-> Forall (fun x => x < Tint_modulus) d.
Proof.
  intros Hl. unfold radices_fit. rewrite binomial_diag. split.
  - intros H. specialize (H 0%nat ltac:(lia)).
    rewrite block_radices_top in H by exact Hl. exact H.
  - intros H b Hb. replace b with 0%nat by lia.
    rewrite block_radices_top by exact Hl. exact H.
Qed.

(** [operator[]] does not throw for an index below [size()]. *)
Lemma decode_below_size (n k : nat) (d : list Z) (i : Z) :
  let L := built n k d in
  0 <= i < size L -> forall b, operator_brackets n k L i <> Thrown b.
Proof.
  intros L Hi b. subst L. rewrite size_sum in Hi.
  pose proof (to_Bint_range (sum_Z (block_sizes (built n k d)))) as Hr.
  pose proof (stored_before_nonneg n k d 0) as H0.
  pose proof (to_Bint_le _ (proj2 H0)) as Hle.
  destruct (block_exists _ (built_sizes_nonneg n k d) i ltac:(lia))
    as (j & Hj & Hloc).
  rewrite built_length in Hj.
  rewrite (decode_located n k d j i Hj ltac:(lia) Hloc).
  destruct (split_digits _ (seq 0 k) _) as [[along q]|]; [|discriminate].
  destruct (split_digits _ (seq 0 (n - k)) _) as [[across q']|];
    discriminate.
Qed.

Lemma sum_stored_total (n k : nat) (d : list Z) :
  shape n d -> fits_Bint n k d ->
  sum_Z (block_sizes (built n k d)) = total_cells n k d.
Proof.
  intros Hd Hfit.
  rewrite <- (firstn_all (block_sizes (built n k d))).
  fold (stored_before (built n k d) (length (block_sizes (built n k d)))).
  rewrite built_length, stored_before_cells, cells_before_total by auto.
  reflexivity.
Qed.

(** Increasing the first digit by one increases the mixed-radix value by
    one. *)
Lemma digits_of_increment (n k : nat) (L : Lexicographic) (e1 e2 : Element)
    (a : Z) (rest : list Z) :
  (1 <= k)%nat ->
  directions e2 = directions e1 ->
  position_across e2 = position_across e1 ->
  position_along e1 = a :: rest ->
  position_along e2 = (a + 1) :: rest ->
  mixed_radix (block_fdims n k L (directions e2)) (digits_of n k e2)
  = mixed_radix (block_fdims n k L (directions e1)) (digits_of n k e1) + 1.
Proof.
  intros Hk Hdir Hacross H1 H2.
  unfold block_fdims, digits_of. rewrite Hdir, Hacross, H1, H2.
  destruct k as [|k]; [lia|]. cbn [seq map app mixed_radix].
  rewrite <- !seq_shift, !map_map. cbn [array_get nth]. ring.
Qed.

(* ================================================================== *)
(** * The scenarios of the specification *)
(* ================================================================== *)

(** For concrete elements: the digit conditions of [well_formed], one
    digit after the other. *)
Ltac digit_cases j :=
  first
    [ exfalso; lia
    | destruct j as [|j];
      [ vm_compute; split; [intros HH; discriminate HH|reflexivity]
      | digit_cases j ] ].

Ltac concrete_well_formed :=
  let j := fresh "j" in
  split;
  [ split;
    [ reflexivity
    | split;
      [ simpl; lia
      | repeat (apply Forall_cons; [lia|]); apply Forall_nil ] ]
  | split;
    [ reflexivity
    | split; [reflexivity | split; intros j ?; digit_cases j ] ] ].

Example scenario_S1 :
  Lexicographic_ctor 2 1 300 [2; 3]
  = Some {| dimensions := [2; 3]; block_sizes := [8; 9] |}
  /\ size (built 2 1 [2; 3]) = 17
  /\ operator_brackets 2 1 (built 2 1 [2; 3]) 2
     = Returned {| directions := [0%nat]; position_along := [0];
                   position_across := [1] |}
  /\ operator_brackets 2 1 (built 2 1 [2; 3]) 16
     = Returned {| directions := [1%nat]; position_along := [2];
                   position_across := [2] |}.
Proof. repeat split; reflexivity. Qed.

Example scenario_S2 :
  let e := {| directions := [0%nat; 1%nat]; position_along := [1; 1];
              position_across := [2] |} in
  size (built 3 2 [2; 2; 2]) = 36
  /\ index 3 2 (built 3 2 [2; 2; 2]) e = 11
  /\ operator_brackets 3 2 (built 3 2 [2; 2; 2]) 11 = Returned e.
Proof. repeat split; reflexivity. Qed.

Example scenario_S4 :
  size (built 3 3 [4; 5; 6]) = 120
  /\ operator_brackets 3 3 (built 3 3 [4; 5; 6]) 119
     = Returned {| directions := [0%nat; 1%nat; 2%nat];
                   position_along := [3; 4; 5]; position_across := [] |}.
Proof. repeat split; reflexivity. Qed.

(* ================================================================== *)
(** * Indices below [size()] in any grid *)
(* ================================================================== *)

Lemma prod_nonzero_positive (l : list Z) :
  Forall (fun r => 0 <= r) l -> prod_Z l <> 0 -> Forall (fun r => 1 <= r) l.
Proof.
  induction 1 as [|x l Hx Hl IH]; intros Hp; constructor; simpl in Hp.
  - assert (x <> 0) by (intros ->; apply Hp; reflexivity). lia.
  - apply IH. intros H0. apply Hp. rewrite H0. ring.
Qed.

(** When no radix in use is 0 as a [Tint], [operator[]] returns an
    element for every index below [size()]. *)
Lemma decode_below_size_returns (n k : nat) (d : list Z) (i : Z) :
  let L := built n k d in
  0 <= i < size L -> radices_nonzero n k d ->
  exists e, operator_brackets n k L i = Returned e.
Proof.
  intros L Hi Hnz. subst L. rewrite size_sum in Hi.
  pose proof (to_Bint_range (sum_Z (block_sizes (built n k d)))) as Hr.
  pose proof (stored_before_nonneg n k d 0) as H0.
  pose proof (to_Bint_le _ (proj2 H0)) as Hle.
  destruct (block_exists _ (built_sizes_nonneg n k d) i ltac:(lia))
    as (b & Hb & Hloc).
  rewrite built_length in Hb.
  fold (stored_before (built n k d) b) in Hloc.
  fold (stored_before (built n k d) (S b)) in Hloc.
  destruct (decode_returns n k d b i Hb ltac:(lia) Hloc) as (e & He & _).
  - rewrite block_fdims_built. specialize (Hnz b Hb).
    induction Hnz as [|r rs Hr0 _ IH]; simpl; constructor; [|exact IH].
    pose proof (to_Tint_range r). unfold to_Tint in *. lia.
  - exists e. exact He.
Qed.

(** When the radices fit, decoding any index below [size()] and
    encoding the element gives the index, also in a grid with
    dimensions equal to zero: an index lies in a block that is not
    empty, and the radices of such a block are positive. *)
Lemma roundtrip_index_nonempty (n k : nat) (d : list Z) (i : Z) :
  let L := built n k d in
  shape n d -> radices_fit n k d ->
  0 <= i < size L ->
  exists e, operator_brackets n k L i = Returned e /\ index n k L e = i.
Proof.
  intros L Hd Hfit Hi. subst L.
  rewrite size_sum in Hi.
  pose proof (to_Bint_range (sum_Z (block_sizes (built n k d)))) as Hr.
  pose proof (stored_before_nonneg n k d 0) as H0.
  pose proof (to_Bint_le _ (proj2 H0)) as Hle.
  destruct (block_exists _ (built_sizes_nonneg n k d) i ltac:(lia))
    as (b & Hb & Hloc).
  rewrite built_length in Hb.
  fold (stored_before (built n k d) b) in Hloc.
  fold (stored_before (built n k d) (S b)) in Hloc.
  pose proof Hloc as Hloc'. rewrite stored_before_S in Hloc' by exact Hb.
  assert (Hne : block_cells n k d b <> 0).
  { intros Hz. rewrite Hz in Hloc'. change (to_Bint 0) with 0 in Hloc'. lia. }
  assert (Hrs : Forall (fun r => 1 <= r) (block_radices n k d (get n k b))).
  { apply prod_nonzero_positive.
    - apply (block_radices_nonneg n k d _ Hd).
    - rewrite <- block_cells_radices. exact Hne. }
  destruct (roundtrip_located n k d b i Hb ltac:(lia) Hloc) as (e & He & Hidx).
  { rewrite block_fdims_fit by assumption.
    eapply Forall_impl; [|exact Hrs]. simpl. lia. }
  exists e. split; [exact He|]. rewrite Hidx.
  rewrite block_fdims_fit by assumption.
  rewrite <- block_cells_radices.
  assert (Hc : 1 <= block_cells n k d b).
  { rewrite block_cells_radices. apply prod_Z_pos, Hrs. }
  pose proof (to_Bint_le (block_cells n k d b) ltac:(lia)).
  rewrite Z.mod_small by lia. lia.
Qed.

(* ================================================================== *)
(** * Properties of the enumeration *)
(* ================================================================== *)

(** C1 (round trip index -> element -> index), evaluated on the grid of
    order 1 with [d = (300)] and [k = 1]: the dimension is positive and
    the index 50 is below [size() = 300], but [operator[]] works with
    the radix [300 mod 256 = 44], returns the digit [50 mod 44 = 6], and
    [index] maps that element to 6, not back to 50. *)
Theorem decode_encode_wide_dimension :
  let d := [300] in
  let L := {| dimensions := d; block_sizes := [300] |} in
  let e := {| directions := [0%nat]; position_along := [6];
              position_across := [] |} in
  Lexicographic_ctor 1 1 300 d = Some L
  /\ shape 1 d /\ positive d
  /\ 0 <= 50 < size L
  /\ operator_brackets 1 1 L 50 = Returned e
  /\ index 1 1 L e = 6.
Proof.
  repeat split; try reflexivity; try (intros H; discriminate H).
  - repeat constructor; try (intros H; discriminate H).
  - repeat constructor. intros H; discriminate H.
Qed.

(** C2 as stated fails when the number of cells overflows [Bint]: on
    the grid [d = (255,255,255,255,255)] with [k = n = 5] the well-formed
    element with digits [(0,0,0,0,254)] is encoded modulo [2^32] and the
    index decodes to no element at all. *)
Lemma encode_decode_overflow :
  let d := [255; 255; 255; 255; 255] in
  let L := {| dimensions := d; block_sizes := [167118079] |} in
  let e := {| directions := [0; 1; 2; 3; 4]%nat;
              position_along := [0; 0; 0; 0; 254];
              position_across := [] |} in
  Lexicographic_ctor 5 5 300 d = Some L
  /\ shape 5 d /\ positive d /\ well_formed 5 5 d e
  /\ operator_brackets 5 5 L (index 5 5 L e) <> Returned e.
Proof.
  cbv zeta. split; [reflexivity|]. split; [|split; [|split]].
  - split; [reflexivity|]. repeat constructor; intros H; discriminate H.
  - repeat constructor; intros H; discriminate H.
  - concrete_well_formed.
  - vm_compute. intros H; discriminate H.
Qed.

(** C2 (round trip element -> index -> element), amended: on a grid
    with positive dimensions whose radices fit the type [Tint] and whose
    number of cells fits the type [Bint], decoding the index of a
    well-formed element returns that element. *)
Theorem encode_decode_round_trip (n k fuel : nat) (d : list Z)
    (L : Lexicographic) (e : Element) :
  Lexicographic_ctor n k fuel d = Some L ->
  shape n d -> positive d ->
  radices_fit n k d -> fits_Bint n k d ->
  well_formed n k d e ->
  operator_brackets n k L (index n k L e) = Returned e.
Proof.
  intros Hctor Hd _ Hrfit Hfit He.
  apply ctor_finished in Hctor as (-> & _).
  apply roundtrip_element; assumption.
Qed.

Lemma encode_decode_round_trip_witness :
  let d := [2; 2; 2] in
  let L := {| dimensions := d; block_sizes := [12; 12; 12] |} in
  let e := {| directions := [0%nat; 1%nat]; position_along := [1; 1];
              position_across := [2] |} in
  operator_brackets 3 2 L (index 3 2 L e) = Returned e.
Proof.
  cbv zeta. apply (encode_decode_round_trip 3 2 300 [2; 2; 2]).
  - reflexivity.
  - split; [reflexivity|]. repeat constructor; intros H; discriminate H.
  - repeat constructor; intros H; discriminate H.
  - apply small_dimensions_fit; [reflexivity|].
    repeat constructor.
  - reflexivity.
  - concrete_well_formed.
Defined.

(** C3 as stated fails when a product overflows [Bint]: for
    [d = (65535,65535,65535)] and [k = n = 3] the stored block size is
    [65535^3 mod 2^32 = 196607]. *)
Lemma block_size_overflow :
  let d := [65535; 65535; 65535] in
  let L := {| dimensions := d; block_sizes := [196607] |} in
  Lexicographic_ctor 3 3 300 d = Some L
  /\ shape 3 d
  /\ block_size L 0 <> block_cells 3 3 d 0.
Proof.
  cbv zeta. split; [reflexivity|]. split.
  - split; [reflexivity|]. repeat constructor; intros H; discriminate H.
  - vm_compute. intros H; discriminate H.
Qed.

(** C3 (block sizes and total count), amended: after construction,
    [block_size(b)] is the product of the radices of block [b] reduced
    modulo [2^32], hence the product itself when that is a [Bint], and
    [size()] is the sum of the [block_size(b)] reduced modulo [2^32]. *)
Theorem block_sizes_modulo (n k fuel : nat) (d : list Z) (L : Lexicographic) :
  Lexicographic_ctor n k fuel d = Some L ->
  (forall b, (b < binomial n k)%nat ->
     block_size L (Z.of_nat b) = block_cells n k d b mod Bint_modulus
     /\ (0 <= block_cells n k d b < Bint_modulus ->
         block_size L (Z.of_nat b) = block_cells n k d b))
  /\ size L
     = sum_Z (map (fun b => block_size L (Z.of_nat b))
                (seq 0 (binomial n k))) mod Bint_modulus.
Proof.
  intros Hctor. apply ctor_finished in Hctor as (-> & _). split.
  - intros b Hb. unfold block_size, array_get. rewrite Nat2Z.id.
    rewrite built_block by exact Hb. split; [reflexivity|].
    apply to_Bint_small.
  - rewrite size_sum. unfold to_Bint. f_equal. f_equal.
    rewrite <- (built_length n k d). symmetry.
    etransitivity; [|apply map_array_get].
    apply map_ext. intros b. unfold block_size.
    rewrite Nat2Z.id. reflexivity.
Qed.

Lemma block_sizes_modulo_witness :
  let d := [2; 3] in
  let L := {| dimensions := d; block_sizes := [8; 9] |} in
  (forall b, (b < binomial 2 1)%nat ->
     block_size L (Z.of_nat b) = block_cells 2 1 d b mod Bint_modulus
     /\ (0 <= block_cells 2 1 d b < Bint_modulus ->
         block_size L (Z.of_nat b) = block_cells 2 1 d b))
  /\ size L
     = sum_Z (map (fun b => block_size L (Z.of_nat b))
                (seq 0 (binomial 2 1))) mod Bint_modulus.
Proof.
  cbv zeta. apply (block_sizes_modulo 2 1 300 [2; 3]). reflexivity.
Defined.

(** C4 as stated fails when the sum of the block sizes overflows
    [Bint]: for [d = (254,254,254,254)] and [k = 3] each of the four
    blocks has 4178701320 cells, [size()] wraps around to 3829903392, and
    the index 3829903392 lies in block 0 and is decoded. *)
Lemma out_of_range_undetected :
  let d := [254; 254; 254; 254] in
  let L := {| dimensions := d;
              block_sizes := [4178701320; 4178701320; 4178701320;
                              4178701320] |} in
  Lexicographic_ctor 4 3 300 d = Some L
  /\ size L <= 3829903392 < Bint_modulus
  /\ operator_brackets 4 3 L 3829903392
     = Returned {| directions := [0; 1; 2]%nat;
                   position_along := [206; 157; 181];
                   position_across := [233] |}.
Proof.
  cbv zeta. split; [reflexivity|]. split; [|reflexivity].
  split; [intros H; discriminate H|reflexivity].
Qed.

(** C4 (out-of-range index), amended: when the number of cells of the
    grid is a [Bint], [operator[]] throws for every index at or above
    [size()]; for every grid and every index below [size()] it does not
    throw, and it returns an element whenever no radix in use is a
    multiple of 256, that is, 0 as a [Tint]. *)
Theorem out_of_range_throws (n k fuel : nat) (d : list Z) (L : Lexicographic)
    (i : Z) :
  Lexicographic_ctor n k fuel d = Some L ->
  0 <= i < Bint_modulus ->
  (shape n d -> fits_Bint n k d -> size L <= i ->
   operator_brackets n k L i = Thrown (Z.of_nat (binomial n k)))
  /\ (i < size L ->
      (forall b, operator_brackets n k L i <> Thrown b)
      /\ (radices_nonzero n k d ->
          exists e, operator_brackets n k L i = Returned e)).
Proof.
  intros Hctor Hi. apply ctor_finished in Hctor as (-> & _). split.
  - intros Hd Hfit Hsize. apply decode_beyond.
    rewrite sum_stored_total by assumption.
    rewrite size_total in Hsize by assumption. lia.
  - intros Hlt. split; [apply decode_below_size; lia|].
    intros Hnz. apply decode_below_size_returns; [lia|exact Hnz].
Qed.

Lemma out_of_range_throws_witness :
  let d := [2; 3] in
  let L := {| dimensions := d; block_sizes := [8; 9] |} in
  operator_brackets 2 1 L 17 = Thrown 2
  /\ (forall b, operator_brackets 2 1 L 16 <> Thrown b)
  /\ exists e, operator_brackets 2 1 L 16 = Returned e.
Proof.
  cbv zeta. split; [|split].
  - apply (out_of_range_throws 2 1 300 [2; 3]).
    + reflexivity.
    + split; [intros H; discriminate H|reflexivity].
    + split; [reflexivity|]. repeat constructor; intros H; discriminate H.
    + reflexivity.
    + intros H; discriminate H.
  - apply (out_of_range_throws 2 1 300 [2; 3]).
    + reflexivity.
    + split; [intros H; discriminate H|reflexivity].
    + reflexivity.
  - apply (out_of_range_throws 2 1 300 [2; 3]).
    + reflexivity.
    + split; [intros H; discriminate H|reflexivity].
    + reflexivity.
    + intros b Hb.
      destruct b as [|[|b]]; [| |vm_compute in Hb; lia];
        repeat constructor; intros H; discriminate H.
Defined.

(** C5 as stated fails: [index] checks nothing. On the grid [d = (2)]
    with [k = n = 1] the element with the digit 5, outside its radix 2,
    is mapped to the number 5. *)
Lemma index_accepts_malformed :
  let d := [2] in
  let L := {| dimensions := d; block_sizes := [2] |} in
  let e := {| directions := [0%nat]; position_along := [5];
              position_across := [] |} in
  Lexicographic_ctor 1 1 300 d = Some L
  /\ ~ well_formed 1 1 d e
  /\ index 1 1 L e = 5.
Proof.
  cbv zeta. split; [reflexivity|]. split; [|reflexivity].
  intros (_ & _ & _ & H & _). specialize (H 0%nat ltac:(lia)).
  vm_compute in H. destruct H as [_ H]. discriminate H.
Qed.

(** C5 (malformed elements), amended: [index] performs no validation.
    For every element whose [directions] is a valid combination,
    whatever its digits, it returns the sum of the sizes of the blocks
    before plus the mixed-radix value of the digits as given, reduced
    modulo [2^32]. *)
Theorem index_unchecked (n k fuel : nat) (d : list Z) (L : Lexicographic)
    (e : Element) :
  Lexicographic_ctor n k fuel d = Some L ->
  valid n k (directions e) ->
  index n k L e
  = (sum_Z (map (fun b => block_size L (Z.of_nat b))
              (seq 0 (Combinations.index n k (directions e))))
     + mixed_radix (block_fdims n k L (directions e)) (digits_of n k e))
    mod Bint_modulus.
Proof.
  intros _ _. rewrite index_formula. unfold to_Bint, block_size.
  f_equal. f_equal. f_equal. apply map_ext. intros b.
  rewrite Nat2Z.id. reflexivity.
Qed.

Lemma index_unchecked_witness :
  let d := [2] in
  let L := {| dimensions := d; block_sizes := [2] |} in
  let e := {| directions := [0%nat]; position_along := [5];
              position_across := [] |} in
  index 1 1 L e
  = (sum_Z (map (fun b => block_size L (Z.of_nat b))
              (seq 0 (Combinations.index 1 1 (directions e))))
     + mixed_radix (block_fdims 1 1 L (directions e)) (digits_of 1 1 e))
    mod Bint_modulus.
Proof.
  cbv zeta. apply (index_unchecked 1 1 300 [2]).
  - reflexivity.
  - repeat split; simpl; try lia. repeat constructor.
Defined.

(** C6 as stated fails when the index wraps around: for
    [d = (254,254,254,254)] and [k = 3], block 1 starts at 4178701320, the
    well-formed element of block 1 with digits [(15,32,24)] and [(7)] has
    the index [2^32 - 1], and its successor along the first axis has the
    index 0. *)
Lemma along_increment_wraps :
  let d := [254; 254; 254; 254] in
  let L := {| dimensions := d;
              block_sizes := [4178701320; 4178701320; 4178701320;
                              4178701320] |} in
  let e1 := {| directions := [0; 1; 3]%nat; position_along := [15; 32; 24];
               position_across := [7] |} in
  let e2 := {| directions := [0; 1; 3]%nat; position_along := [16; 32; 24];
               position_across := [7] |} in
  Lexicographic_ctor 4 3 300 d = Some L
  /\ shape 4 d /\ positive d
  /\ well_formed 4 3 d e1 /\ well_formed 4 3 d e2
  /\ index 4 3 L e1 = 4294967295
  /\ index 4 3 L e2 = 0
  /\ index 4 3 L e2 <> index 4 3 L e1 + 1.
Proof.
  cbv zeta. split; [reflexivity|].
  split; [split; [reflexivity|];
          repeat constructor; intros H; discriminate H|].
  split; [repeat constructor; intros H; discriminate H|].
  split; [concrete_well_formed|]. split; [concrete_well_formed|].
  split; [reflexivity|]. split; [reflexivity|].
  vm_compute. intros H; discriminate H.
Qed.

(** C6 (digit ordering within a block), amended: for [k >= 1] and two
    elements that differ only in [position_along[0]], which is larger by
    one in [e2], [index(e2)] is [index(e1) + 1] reduced modulo [2^32]; it
    is [index(e1) + 1] when both elements are well-formed and the number
    of cells of the grid is a [Bint]. *)
Theorem along_increment (n k fuel : nat) (d : list Z) (L : Lexicographic)
    (e1 e2 : Element) (a : Z) (rest : list Z) :
  Lexicographic_ctor n k fuel d = Some L ->
  (1 <= k)%nat ->
  directions e2 = directions e1 ->
  position_across e2 = position_across e1 ->
  position_along e1 = a :: rest ->
  position_along e2 = (a + 1) :: rest ->
  index n k L e2 = (index n k L e1 + 1) mod Bint_modulus
  /\ (shape n d -> positive d -> fits_Bint n k d ->
      well_formed n k d e1 -> well_formed n k d e2 ->
      index n k L e2 = index n k L e1 + 1).
Proof.
  intros Hctor Hk Hdir Hacross H1 H2.
  apply ctor_finished in Hctor as (-> & _).
  pose proof (digits_of_increment n k (built n k d) e1 e2 a rest
                Hk Hdir Hacross H1 H2) as Hinc.
  split.
  - rewrite !index_formula, Hinc, Hdir.
    fold (to_Bint (to_Bint
      (sum_Z (map (array_get (block_sizes (built n k d)))
                (seq 0 (Combinations.index n k (directions e1))))
       + mixed_radix (block_fdims n k (built n k d) (directions e1))
           (digits_of n k e1)) + 1)).
    rewrite to_Bint_add_l. f_equal. ring.
  - intros Hd _ Hfit He1 He2.
    destruct (index_range n k d e1 Hd Hfit He1) as [-> _].
    destruct (index_range n k d e2 Hd Hfit He2) as [-> _].
    rewrite Hinc, Hdir. ring.
Qed.

Lemma along_increment_witness :
  let d := [2; 2; 2] in
  let L := {| dimensions := d; block_sizes := [12; 12; 12] |} in
  let e1 := {| directions := [0%nat; 1%nat]; position_along := [0; 1];
               position_across := [2] |} in
  let e2 := {| directions := [0%nat; 1%nat]; position_along := [1; 1];
               position_across := [2] |} in
  index 3 2 L e2 = (index 3 2 L e1 + 1) mod Bint_modulus
  /\ index 3 2 L e2 = index 3 2 L e1 + 1.
Proof.
  cbv zeta.
  destruct (along_increment 3 2 300 [2; 2; 2]
              {| dimensions := [2; 2; 2]; block_sizes := [12; 12; 12] |}
              {| directions := [0%nat; 1%nat]; position_along := [0; 1];
                 position_across := [2] |}
              {| directions := [0%nat; 1%nat]; position_along := [1; 1];
                 position_across := [2] |}
              0 [1]) as [Hmod Hexact]; try reflexivity.
  - lia.
  - split; [exact Hmod|]. apply Hexact.
    + split; [reflexivity|]. repeat constructor; intros H; discriminate H.
    + repeat constructor; intros H; discriminate H.
    + reflexivity.
    + concrete_well_formed.
    + concrete_well_formed.
Defined.

(** C7 as stated fails when the index wraps around: for
    [d = (254,254,254,254)] and [k = 3], the first element of block 0 and
    a well-formed element of block 1 both have the index 0. *)
Lemma block_ordering_overflow :
  let d := [254; 254; 254; 254] in
  let L := {| dimensions := d;
              block_sizes := [4178701320; 4178701320; 4178701320;
                              4178701320] |} in
  let e1 := {| directions := [0; 1; 2]%nat; position_along := [0; 0; 0];
               position_across := [0] |} in
  let e2 := {| directions := [0; 1; 3]%nat; position_along := [16; 32; 24];
               position_across := [7] |} in
  Lexicographic_ctor 4 3 300 d = Some L
  /\ shape 4 d /\ positive d
  /\ well_formed 4 3 d e1 /\ well_formed 4 3 d e2
  /\ (Combinations.index 4 3 (directions e1)
      < Combinations.index 4 3 (directions e2))%nat
  /\ ~ index 4 3 L e1 < index 4 3 L e2.
Proof.
  cbv zeta. split; [reflexivity|].
  split; [split; [reflexivity|];
          repeat constructor; intros H; discriminate H|].
  split; [repeat constructor; intros H; discriminate H|].
  split; [concrete_well_formed|]. split; [concrete_well_formed|].
  split; [vm_compute; lia|].
  vm_compute. intros H; discriminate H.
Qed.

(** C7 (block ordering), amended: on a grid with positive dimensions
    whose number of cells is a [Bint], a well-formed element of a block
    with the smaller combination index has the smaller index. *)
Theorem block_ordering (n k fuel : nat) (d : list Z) (L : Lexicographic)
    (e1 e2 : Element) :
  Lexicographic_ctor n k fuel d = Some L ->
  shape n d -> positive d -> fits_Bint n k d ->
  well_formed n k d e1 -> well_formed n k d e2 ->
  (Combinations.index n k (directions e1)
   < Combinations.index n k (directions e2))%nat ->
  index n k L e1 < index n k L e2.
Proof.
  intros Hctor Hd _ Hfit He1 He2 Hlt.
  apply ctor_finished in Hctor as (-> & _).
  destruct (index_range n k d e1 Hd Hfit He1) as [_ H1].
  destruct (index_range n k d e2 Hd Hfit He2) as [_ H2].
  pose proof (cells_before_mono n k d _ Hd _ Hlt). lia.
Qed.

Lemma block_ordering_witness :
  let d := [2; 3] in
  let L := {| dimensions := d; block_sizes := [8; 9] |} in
  let e1 := {| directions := [0%nat]; position_along := [1];
               position_across := [3] |} in
  let e2 := {| directions := [1%nat]; position_along := [0];
               position_across := [0] |} in
  index 2 1 L e1 < index 2 1 L e2.
Proof.
  cbv zeta. apply (block_ordering 2 1 300 [2; 3]).
  - reflexivity.
  - split; [reflexivity|]. repeat constructor; intros H; discriminate H.
  - repeat constructor; intros H; discriminate H.
  - reflexivity.
  - concrete_well_formed.
  - concrete_well_formed.
  - vm_compute. lia.
Defined.

(** C8 as stated fails when the product overflows [Bint]: for
    [d = (65535,65535)] and [k = 0] there are [65536 * 65536 = 2^32]
    vertices and [size()] is 0. *)
Lemma vertex_count_overflow :
  let d := [65535; 65535] in
  let L := {| dimensions := d; block_sizes := [0] |} in
  Lexicographic_ctor 2 0 300 d = Some L
  /\ shape 2 d /\ positive d
  /\ size L = 0
  /\ size L <> prod_Z (map (fun x => x + 1) d).
Proof.
  cbv zeta. split; [reflexivity|].
  split; [split; [reflexivity|];
          repeat constructor; intros H; discriminate H|].
  split; [repeat constructor; intros H; discriminate H|].
  split; [reflexivity|]. vm_compute. intros H; discriminate H.
Qed.

(** C8 (corner cases), amended: for [k = 0], [size()] is the product of
    the [d[i] + 1] reduced modulo [2^32], and for [k = n] it is the
    product of the [d[i]] reduced modulo [2^32]; these are the products
    themselves when they are values of type [Bint]. *)
Theorem corner_sizes (n k fuel : nat) (d : list Z) (L : Lexicographic) :
  Lexicographic_ctor n k fuel d = Some L ->
  length d = n ->
  (k = 0%nat -> size L = prod_Z (map (fun x => x + 1) d) mod Bint_modulus)
  /\ (k = n -> size L = prod_Z d mod Bint_modulus).
Proof.
  intros Hctor Hl. apply ctor_finished in Hctor as (-> & _). split.
  - intros ->. rewrite size_single_block by apply binomial_0_r.
    rewrite block_cells_radices, block_radices_vertices by exact Hl.
    reflexivity.
  - intros ->. rewrite size_single_block by apply binomial_diag.
    rewrite block_cells_radices, block_radices_top by exact Hl.
    reflexivity.
Qed.

Lemma corner_sizes_witness :
  (size {| dimensions := [1; 1; 1]; block_sizes := [8] |} = 8)
  /\ (size {| dimensions := [4; 5; 6]; block_sizes := [120] |} = 120).
Proof.
  split.
  - apply (proj1 (corner_sizes 3 0 300 [1; 1; 1] _ eq_refl eq_refl) eq_refl).
  - apply (proj2 (corner_sizes 3 3 300 [4; 5; 6] _ eq_refl eq_refl) eq_refl).
Defined.

(** C9 as stated fails: the constructor checks nothing. From the shape
    [d = (0,3)] with [k = 1] it builds an enumerator with [size() = 3]
    whose index 0 decodes to an element that encodes to 0 again. *)
Lemma zero_dimension_accepted :
  let d := [0; 3] in
  let L := {| dimensions := d; block_sizes := [0; 3] |} in
  let e := {| directions := [1%nat]; position_along := [0];
              position_across := [0] |} in
  Lexicographic_ctor 2 1 300 d = Some L
  /\ shape 2 d /\ ~ positive d
  /\ size L = 3
  /\ operator_brackets 2 1 L 0 = Returned e
  /\ index 2 1 L e = 0.
Proof.
  cbv zeta. split; [reflexivity|].
  split; [split; [reflexivity|];
          repeat constructor; intros H; discriminate H|].
  split; [|repeat split; reflexivity].
  intros H. inversion H as [|? ? H0 _]. apply H0. reflexivity.
Qed.

(** C9 (shapes with a non-positive entry), amended: the constructor
    performs no validation. An entry of type [Sint] is never negative;
    a shape with entries equal to zero is accepted like any other (the
    constructor returns whenever its loop bounds are counter values).
    Every block gets the product of its radices modulo [2^32] as its
    size, so that a block that extends along an axis of dimension zero
    gets the size 0, and the enumerator remains usable: when the
    radices in use fit the type [Tint], every index below [size()]
    decodes to an element that encodes to that index again. *)
Theorem ctor_unchecked (n k fuel : nat) (d : list Z) :
  counters_fit n k -> (Z.to_nat Tint_modulus < fuel)%nat ->
  exists L,
    Lexicographic_ctor n k fuel d = Some L
    /\ dimensions L = d
    /\ (forall b, (b < binomial n k)%nat ->
          block_size L (Z.of_nat b) = block_cells n k d b mod Bint_modulus)
    /\ (forall b j, (b < binomial n k)%nat -> (j < k)%nat ->
          array_get d (in_ (get n k b) j) = 0 ->
          block_size L (Z.of_nat b) = 0)
    /\ (shape n d -> radices_fit n k d ->
        forall i, 0 <= i < size L ->
          exists e, operator_brackets n k L i = Returned e
                    /\ index n k L e = i).
Proof.
  intros Hfit Hfuel. exists (built n k d).
  split; [apply ctor_finishes; assumption|]. split; [reflexivity|].
  assert (Hsize : forall b, (b < binomial n k)%nat ->
            block_size (built n k d) (Z.of_nat b)
            = block_cells n k d b mod Bint_modulus).
  { intros b Hb. unfold block_size, array_get. rewrite Nat2Z.id.
    rewrite built_block by exact Hb. reflexivity. }
  split; [exact Hsize|]. split.
  - intros b j Hb Hj H0. rewrite Hsize by exact Hb.
    rewrite (block_cells_zero n k d b j Hj H0). reflexivity.
  - intros Hd Hrfit i Hi. apply roundtrip_index_nonempty; assumption.
Qed.

Lemma ctor_unchecked_witness :
  exists L,
    Lexicographic_ctor 2 1 300 [0; 3] = Some L
    /\ dimensions L = [0; 3]
    /\ (forall b, (b < binomial 2 1)%nat ->
          block_size L (Z.of_nat b) = block_cells 2 1 [0; 3] b mod Bint_modulus)
    /\ (forall b j, (b < binomial 2 1)%nat -> (j < 1)%nat ->
          array_get [0; 3] (in_ (get 2 1 b) j) = 0 ->
          block_size L (Z.of_nat b) = 0)
    /\ (forall i, 0 <= i < size L ->
          exists e, operator_brackets 2 1 L i = Returned e
                    /\ index 2 1 L e = i).
Proof.
  destruct (ctor_unchecked 2 1 300 [0; 3])
    as (L & Hctor & Hdim & Hsize & Hzero & Husable).
  - repeat split; reflexivity.
  - vm_compute. lia.
  - exists L. split; [exact Hctor|]. split; [exact Hdim|].
    split; [exact Hsize|]. split; [exact Hzero|].
    apply Husable.
    + split; [reflexivity|]. repeat constructor; intros H; discriminate H.
    + apply small_dimensions_fit; [reflexivity|]. repeat constructor.
Defined.

(** C10 as stated fails for [k = n]: on the grid [d = (255)] with
    [k = n = 1] both round trips hold although [max d[i] + 1 = 256] is
    not a value of type [Tint]. *)
Lemma bijection_at_255 :
  let d := [255] in
  let L := {| dimensions := d; block_sizes := [255] |} in
  Lexicographic_ctor 1 1 300 d = Some L
  /\ shape 1 d /\ positive d
  /\ bijection 1 1 d L
  /\ ~ Forall (fun x => x + 1 < Tint_modulus) d.
Proof.
  cbv zeta.
  assert (Hd : shape 1 [255]).
  { split; [reflexivity|]. repeat constructor; intros H; discriminate H. }
  assert (Hpos : positive [255])
    by (repeat constructor; intros H; discriminate H).
  assert (Hfit : radices_fit 1 1 [255]).
  { apply radices_fit_top; [reflexivity|]. repeat constructor. }
  split; [reflexivity|]. split; [exact Hd|]. split; [exact Hpos|]. split.
  - change {| dimensions := [255]; block_sizes := [255] |}
      with (built 1 1 [255]).
    split.
    + intros i Hi. apply roundtrip_index; assumption.
    + intros e He. apply roundtrip_element; try assumption. reflexivity.
  - intros H. inversion H as [|? ? H0 _]. vm_compute in H0. discriminate H0.
Qed.

(** C10 (radices stored in a [Tint]), amended: [operator[]] and [index]
    work with the radices of the block reduced modulo [2^8]. On a grid
    with positive dimensions whose number of cells is a [Bint], both
    round trips hold exactly when every radix in use is a value of type
    [Tint]: [d[in(j)]] for the along-axes and [d[out(j)] + 1] for the
    across-axes of every block. For [k < n] this is the condition that
    [d[i] + 1] fits for every axis; for [k = n] it is the condition that
    [d[i]] fits for every axis. *)
Theorem bijection_iff_radices_fit (n k fuel : nat) (d : list Z)
    (L : Lexicographic) :
  Lexicographic_ctor n k fuel d = Some L ->
  shape n d -> positive d -> fits_Bint n k d ->
  (forall c, block_fdims n k L c
             = map (fun r => r mod 2 ^ Tint_bits) (block_radices n k d c))
  /\ (bijection n k d L <-> radices_fit n k d)
  /\ ((k < n)%nat ->
      (radices_fit n k d <-> Forall (fun x => x + 1 < 2 ^ Tint_bits) d))
  /\ (k = n ->
      (radices_fit n k d <-> Forall (fun x => x < 2 ^ Tint_bits) d)).
Proof.
  intros Hctor Hd Hpos Hfit.
  apply ctor_finished in Hctor as (-> & _).
  split; [apply block_fdims_built|]. split; [|split].
  - split.
    + intros [Hround _]. apply roundtrip_needs_fit; assumption.
    + intros Hrfit. split.
      * intros i Hi. apply roundtrip_index; assumption.
      * intros e He. apply roundtrip_element; assumption.
  - intros Hk. apply radices_fit_below_top; [apply Hd|exact Hk].
  - intros ->. apply radices_fit_top. apply Hd.
Qed.

Lemma bijection_iff_radices_fit_witness :
  let d := [2; 3] in
  let L := {| dimensions := d; block_sizes := [8; 9] |} in
  (forall c, block_fdims 2 1 L c
             = map (fun r => r mod 2 ^ Tint_bits) (block_radices 2 1 d c))
  /\ (bijection 2 1 d L <-> radices_fit 2 1 d)
  /\ ((1 < 2)%nat ->
      (radices_fit 2 1 d <-> Forall (fun x => x + 1 < 2 ^ Tint_bits) d))
  /\ (1%nat = 2%nat ->
      (radices_fit 2 1 d <-> Forall (fun x => x < 2 ^ Tint_bits) d)).
Proof.
  cbv zeta. apply (bijection_iff_radices_fit 2 1 300 [2; 3]).
  - reflexivity.
  - split; [reflexivity|]. repeat constructor; intros H; discriminate H.
  - repeat constructor; intros H; discriminate H.
  - reflexivity.
Defined.

(* ================================================================== *)
(** * Further properties: construction, [order] and [cell_dimension] *)
(* ================================================================== *)

(** Between the corners, a binomial coefficient is at least [n]. *)
Lemma binomial_ge (n : nat) :
  forall k, (1 <= k)%nat -> (k < n)%nat -> (n <= binomial n k)%nat.
Proof.
  induction n as [|n IH]; intros [|k] Hk Hn; try lia.
  simpl.
  assert (HA : (k = 0 /\ binomial n k = 1)%nat
               \/ (1 <= k /\ n <= binomial n k)%nat).
  { destruct k as [|k]; [left; split; [reflexivity|apply binomial_0_r]|].
    right. split; [lia|]. apply IH; lia. }
  assert (HB : (S k = n /\ binomial n (S k) = 1)%nat
               \/ (S k < n /\ n <= binomial n (S k))%nat).
  { destruct (Nat.eq_dec (S k) n) as [<-|Hne].
    - left. split; [reflexivity|apply binomial_diag].
    - right. split; [lia|]. apply IH; lia. }
  lia.
Qed.

(** When the loop bounds of the constructor are counter values, so is
    the tensor order. *)
Lemma counters_fit_order (n k : nat) :
  (k <= n)%nat -> counters_fit n k -> Z.of_nat n < Tint_modulus.
Proof.
  intros Hkn (Hb & Hk & Hnk).
  destruct (Nat.eq_dec k 0) as [->|Hk0]; [lia|].
  destruct (Nat.eq_dec k n) as [->|Hkn']; [lia|].
  pose proof (binomial_ge n k ltac:(lia) ltac:(lia)). lia.
Qed.

(** X1. For every enumerator that the constructor returns, [order()] and
    [cell_dimension()] are the template arguments [n] and [k]
    themselves: their conversion to [Tint] loses nothing. *)
Theorem order_of_constructed (n k fuel : nat) (d : list Z)
    (L : Lexicographic) :
  (k <= n)%nat ->
  Lexicographic_ctor n k fuel d = Some L ->
  order n = Z.of_nat n /\ cell_dimension k = Z.of_nat k.
Proof.
  intros Hkn Hctor. apply ctor_finished in Hctor as (_ & _ & Hfit).
  specialize (Hfit Hkn).
  pose proof (counters_fit_order n k Hkn Hfit).
  destruct Hfit as (_ & Hk & _).
  split; apply to_Tint_small; lia.
Qed.

Lemma order_of_constructed_witness :
  order 3 = 3 /\ cell_dimension 2 = 2.
Proof.
  apply (order_of_constructed 3 2 300 [2; 2; 2]
           {| dimensions := [2; 2; 2]; block_sizes := [12; 12; 12] |}).
  - lia.
  - reflexivity.
Defined.

(** X2. The constructor returns exactly when its three loop bounds
    [C(n,k)], [k] and [n-k] are below 256: otherwise a [Tint] counter
    wraps around to 0 before it reaches its bound and the loop never
    ends. When it returns, the enumerator holds the shape as given and
    [C(n,k)] block sizes. *)
Theorem ctor_returns_iff (n k : nat) (d : list Z) :
  (k <= n)%nat ->
  ((exists fuel L, Lexicographic_ctor n k fuel d = Some L)
   <-> counters_fit n k)
  /\ (forall fuel L, Lexicographic_ctor n k fuel d = Some L ->
        dimensions L = d /\ length (block_sizes L) = binomial n k).
Proof.
  intros Hkn. split; [split|].
  - intros (fuel & L & Hctor).
    apply ctor_finished in Hctor as (_ & _ & Hfit). apply Hfit, Hkn.
  - intros Hfit. exists (S (Z.to_nat Tint_modulus)), (built n k d).
    apply ctor_finishes; [exact Hfit|lia].
  - intros fuel L Hctor. apply ctor_finished in Hctor as (-> & _).
    split; [reflexivity|apply built_length].
Qed.

Lemma ctor_returns_iff_witness :
  ((exists fuel L, Lexicographic_ctor 2 1 fuel [2; 3] = Some L)
   <-> counters_fit 2 1)
  /\ (forall fuel L, Lexicographic_ctor 2 1 fuel [2; 3] = Some L ->
        dimensions L = [2; 3] /\ length (block_sizes L) = binomial 2 1).
Proof.
  apply (ctor_returns_iff 2 1 [2; 3]). lia.
Defined.

(* ================================================================== *)
(** * Further properties: [Element::print_debug] *)
(* ================================================================== *)

Lemma length_scatter (axis_of : nat -> nat) (position : list Z)
    (idxs : list nat) :
  forall data, length (scatter axis_of position idxs data) = length data.
Proof.
  unfold scatter. induction idxs as [|i idxs IH]; intros data; simpl.
  - reflexivity.
  - rewrite IH. apply length_array_set.
Qed.

(** A slot that is no axis of the loop keeps its content. *)
Lemma scatter_other (axis_of : nat -> nat) (position : list Z)
    (idxs : list nat) (a : nat) :
  (forall i, In i idxs -> axis_of i <> a) ->
  forall data,
    array_get (scatter axis_of position idxs data) a = array_get data a.
Proof.
  unfold scatter. induction idxs as [|i idxs IH]; intros Hne data; simpl.
  - reflexivity.
  - rewrite IH by (intros j Hj; apply Hne; right; exact Hj).
    rewrite array_get_set.
    destruct (Nat.eqb_spec (axis_of i) a) as [Heq|_]; [|reflexivity].
    elim (Hne i); [left; reflexivity|exact Heq].
Qed.

(** With distinct axes, the slot of axis [i] receives [position[i]]. *)
Lemma scatter_hit (axis_of : nat -> nat) (position : list Z)
    (idxs : list nat) (i : nat) :
  NoDup (map axis_of idxs) -> In i idxs ->
  forall data, (axis_of i < length data)%nat ->
    array_get (scatter axis_of position idxs data) (axis_of i)
    = array_get position i.
Proof.
  induction idxs as [|i0 idxs IH]; intros Hnd Hin data Hlen; [destruct Hin|].
  simpl in Hnd. inversion Hnd as [|? ? Hnotin Hnd']; subst.
  change (scatter axis_of position (i0 :: idxs) data)
    with (scatter axis_of position idxs
            (array_set data (axis_of i0) (array_get position i0))).
  destruct (in_dec Nat.eq_dec i idxs) as [Hi|Hi].
  - apply IH; [exact Hnd'|exact Hi|]. rewrite length_array_set. exact Hlen.
  - destruct Hin as [->|Hin]; [|contradiction].
    rewrite scatter_other.
    + rewrite array_get_set, Nat.eqb_refl.
      destruct (Nat.ltb_spec (axis_of i) (length data)); [reflexivity|lia].
    + intros j Hj Heq. apply Hnotin. rewrite <- Heq. apply in_map, Hj.
Qed.

Lemma increasing_NoDup (c : Combination) :
  forall lo, increasing_from lo c -> NoDup c.
Proof.
  induction c as [|a c IH]; intros lo H; constructor.
  - destruct H as [_ H]. apply increasing_from_lower in H.
    rewrite Forall_forall in H. intros Hin. specialize (H a Hin). simpl in H.
    lia.
  - destruct H as [_ H]. apply (IH (S a)), H.
Qed.

Lemma complement_NoDup (n : nat) (c : Combination) : NoDup (complement n c).
Proof. unfold complement. apply NoDup_filter, seq_NoDup. Qed.

Lemma complement_In (n : nat) (c : Combination) (a : nat) :
  In a (complement n c) <-> (a < n)%nat /\ ~ In a c.
Proof.
  unfold complement. rewrite filter_In, in_seq, negb_true_iff. split.
  - intros [Ha Hex]. split; [lia|]. intros Hin.
    assert (existsb (Nat.eqb a) c = true); [|congruence].
    apply existsb_exists. exists a. split; [exact Hin|apply Nat.eqb_refl].
  - intros [Ha Hnotin]. split; [lia|]. apply not_true_is_false. intros Hex.
    apply existsb_exists in Hex as (x & Hx & Hxa).
    apply Nat.eqb_eq in Hxa. subst x. contradiction.
Qed.

Lemma map_nth_seq (l : list nat) (m : nat) :
  length l = m -> map (fun j => nth j l 0%nat) (seq 0 m) = l.
Proof.
  intros <-. apply nth_ext with (d := 0%nat) (d' := 0%nat).
  - rewrite length_map, length_seq. reflexivity.
  - intros j Hj. rewrite length_map, length_seq in Hj.
    rewrite (nth_indep _ 0%nat (nth 0 l 0%nat))
      by (rewrite length_map, length_seq; lia).
    rewrite (map_nth (fun j => nth j l 0%nat)), seq_nth by lia. reflexivity.
Qed.

(** The chosen axes of a valid combination, as the first loop meets
    them. *)
Lemma map_in (n k : nat) (c : Combination) :
  valid n k c -> map (in_ c) (seq 0 k) = c.
Proof. intros (Hl & _). apply map_nth_seq, Hl. Qed.

(** The other axes, as the second loop meets them. *)
Lemma map_out (n k : nat) (c : Combination) :
  valid n k c -> map (out_ n c) (seq 0 (n - k)) = complement n c.
Proof. intros Hv. apply map_nth_seq, (complement_length n k c Hv). Qed.

(** Every axis is a chosen axis or one of the others. *)
Lemma axis_covered (n k : nat) (c : Combination) (a : nat) :
  valid n k c -> (a < n)%nat ->
  (exists j, (j < k)%nat /\ in_ c j = a)
  \/ (exists j, (j < n - k)%nat /\ out_ n c j = a).
Proof.
  intros Hv Ha. destruct (in_dec Nat.eq_dec a c) as [Hin|Hout].
  - left. apply (In_nth _ _ 0%nat) in Hin as (j & Hj & Hnth).
    destruct Hv as (Hl & _). exists j. split; [lia|exact Hnth].
  - right. assert (Hin : In a (complement n c))
      by (apply complement_In; split; assumption).
    apply (In_nth _ _ 0%nat) in Hin as (j & Hj & Hnth).
    rewrite (complement_length n k c Hv) in Hj.
    exists j. split; [exact Hj|exact Hnth].
Qed.

(** X3. In [print_debug], for an element whose [directions] is a valid
    combination, the two scatter loops write every slot of the local
    array [data] exactly once: slot [in(j)] holds [position_along[j]],
    slot [out(j)] holds [position_across[j]], every axis is one of
    these, and nothing of the uninitialised content of [data] is left to
    be printed. *)
Theorem print_debug_data_slots (n k : nat) (e : Element) (data : list Z) :
  valid n k (directions e) -> length data = n ->
  length (print_debug_data n k e data) = n
  /\ (forall j, (j < k)%nat ->
        array_get (print_debug_data n k e data) (in_ (directions e) j)
        = array_get (position_along e) j)
  /\ (forall j, (j < n - k)%nat ->
        array_get (print_debug_data n k e data) (out_ n (directions e) j)
        = array_get (position_across e) j)
  /\ (forall a, (a < n)%nat ->
        (exists j, (j < k)%nat /\ in_ (directions e) j = a)
        \/ (exists j, (j < n - k)%nat /\ out_ n (directions e) j = a))
  /\ (forall data', length data' = n ->
        print_debug_data n k e data' = print_debug_data n k e data).
Proof.
  intros Hv Hlen.
  assert (Hslots : forall data0, length data0 = n ->
            length (print_debug_data n k e data0) = n
            /\ (forall j, (j < k)%nat ->
                  array_get (print_debug_data n k e data0)
                    (in_ (directions e) j)
                  = array_get (position_along e) j)
            /\ (forall j, (j < n - k)%nat ->
                  array_get (print_debug_data n k e data0)
                    (out_ n (directions e) j)
                  = array_get (position_across e) j)).
  { intros data0 Hl0. unfold print_debug_data. split; [|split].
    - rewrite !length_scatter. exact Hl0.
    - intros j Hj. rewrite scatter_other.
      + apply scatter_hit.
        * rewrite (map_in n k _ Hv). destruct Hv as (_ & Hi & _).
          apply (increasing_NoDup _ 0%nat Hi).
        * apply in_seq. lia.
        * rewrite Hl0. apply (in_lt n k); assumption.
      + intros i Hi Heq. apply in_seq in Hi.
        assert (Hin : In (out_ n (directions e) i)
                        (complement n (directions e))).
        { unfold out_. apply nth_In.
          rewrite (complement_length n k _ Hv). lia. }
        apply complement_In in Hin as [_ Hnotin]. apply Hnotin.
        rewrite Heq. unfold in_. apply nth_In.
        destruct Hv as (Hl & _). lia.
    - intros j Hj. apply scatter_hit.
      + rewrite (map_out n k _ Hv). apply complement_NoDup.
      + apply in_seq. lia.
      + rewrite length_scatter, Hl0. apply (out_lt n k); assumption. }
  destruct (Hslots data Hlen) as (Hl & Hin & Hout).
  split; [exact Hl|]. split; [exact Hin|]. split; [exact Hout|].
  split; [intros a Ha; apply (axis_covered n k); assumption|].
  intros data' Hlen'. destruct (Hslots data' Hlen') as (Hl' & Hin' & Hout').
  apply nth_ext with (d := 0) (d' := 0); [congruence|].
  intros a Ha. rewrite Hl' in Ha.
  change (array_get (print_debug_data n k e data') a
          = array_get (print_debug_data n k e data) a).
  destruct (axis_covered n k _ a Hv Ha) as [(j & Hj & <-)|(j & Hj & <-)].
  - rewrite Hin, Hin' by exact Hj. reflexivity.
  - rewrite Hout, Hout' by exact Hj. reflexivity.
Qed.

Lemma print_debug_data_slots_witness :
  let e := {| directions := [1%nat]; position_along := [2];
              position_across := [1] |} in
  print_debug_data 2 1 e [7; 7] = [1; 2]
  /\ forall data', length data' = 2%nat ->
       print_debug_data 2 1 e data' = print_debug_data 2 1 e [7; 7].
Proof.
  cbv zeta. split; [reflexivity|].
  apply (print_debug_data_slots 2 1
           {| directions := [1%nat]; position_along := [2];
              position_across := [1] |} [7; 7]).
  - repeat split; simpl; try lia. repeat constructor.
  - reflexivity.
Defined.

(* ================================================================== *)
(** * Further properties: what [operator[]] returns *)
(* ================================================================== *)

(** A digit loop that came to its end met no zero radix, and its result
    is the digits and the quotient of the index. *)
Lemma split_digits_inv (fdim_of : nat -> Z) (idxs : list nat) (index : Z)
    (ds : list Z) (q : Z) :
  Forall (fun r => 0 <= r <= Sint_modulus) (map fdim_of idxs) ->
  0 <= index ->
  split_digits fdim_of idxs index = Some (ds, q) ->
  Forall (fun r => 0 < r) (map fdim_of idxs)
  /\ q = index / prod_Z (map fdim_of idxs)
  /\ mixed_radix (map fdim_of idxs) ds = index mod prod_Z (map fdim_of idxs)
  /\ Forall2 (fun a r => 0 <= a < r) ds (map fdim_of idxs).
Proof.
  intros Hrange Hindex Hsplit.
  destruct (Forall_Exists_dec (fun r => 0 < r) (fun r => Z_lt_dec 0 r)
              (map fdim_of idxs)) as [Hpos|Hzero].
  - assert (Hr : Forall (fun r => 0 < r <= Sint_modulus) (map fdim_of idxs)).
    { rewrite Forall_forall in *. intros r Hr.
      specialize (Hrange r Hr). specialize (Hpos r Hr). lia. }
    destruct (split_digits_value _ _ Hr index Hindex) as (ds' & Hs & Hv & Hb).
    rewrite Hs in Hsplit. injection Hsplit as <- <-. auto.
  - rewrite split_digits_zero in Hsplit; [discriminate|].
    apply Exists_exists in Hzero as (r & Hr & Hr0). apply Exists_exists.
    exists r. split; [exact Hr|].
    rewrite Forall_forall in Hrange. specialize (Hrange r Hr). lia.
Qed.

Lemma fdims_in_Sint (f : nat -> Z) (idxs : list nat) :
  Forall (fun r => 0 <= r < Tint_modulus) (map f idxs) ->
  Forall (fun r => 0 <= r <= Sint_modulus) (map f idxs).
Proof.
  intros H. eapply Forall_impl; [|exact H]. simpl.
  rewrite Tint_modulus_eq, Sint_modulus_eq. lia.
Qed.

(** An index that [operator[]] decodes lies in a block, and the element
    returned carries the combination of the block and the digits of the
    local index with the radices in use. *)
Lemma decode_inv (n k : nat) (d : list Z) (i : Z) (e : Element) :
  let L := built n k d in
  0 <= i < Bint_modulus ->
  operator_brackets n k L i = Returned e ->
  exists b,
    (b < binomial n k)%nat
    /\ stored_before L b <= i < stored_before L (S b)
    /\ directions e = get n k b
    /\ Forall (fun r => 0 < r) (block_fdims n k L (get n k b))
    /\ Forall2 (fun a r => 0 <= a < r) (position_along e)
         (map (fdim_along L (get n k b)) (seq 0 k))
    /\ Forall2 (fun a r => 0 <= a < r) (position_across e)
         (map (fdim_across n L (get n k b)) (seq 0 (n - k)))
    /\ mixed_radix (block_fdims n k L (get n k b))
         (position_along e ++ position_across e)
       = (i - stored_before L b) mod prod_Z (block_fdims n k L (get n k b)).
Proof.
  intros L Hi Hdec. subst L.
  destruct (Z_lt_dec i (sum_Z (block_sizes (built n k d)))) as [Hlt|Hge].
  2:{ rewrite decode_beyond in Hdec by lia. discriminate. }
  destruct (block_exists _ (built_sizes_nonneg n k d) i ltac:(lia))
    as (b & Hb & Hloc).
  rewrite built_length in Hb.
  fold (stored_before (built n k d) b) in Hloc.
  fold (stored_before (built n k d) (S b)) in Hloc.
  rewrite (decode_located n k d b i Hb ltac:(lia) Hloc) in Hdec.
  set (L := built n k d) in *. set (c := get n k b) in *.
  pose proof (block_fdims_range n k L c) as Hrange.
  unfold block_fdims in *. apply Forall_app in Hrange as [Hra Hrc].
  set (l := i - stored_before L b) in *.
  assert (Hl : 0 <= l) by (unfold l; lia).
  destruct (split_digits (fdim_along L c) (seq 0 k) l)
    as [[along q]|] eqn:Ha; [|discriminate].
  destruct (split_digits (fdim_across n L c) (seq 0 (n - k)) q)
    as [[across q']|] eqn:Hc; [|discriminate].
  injection Hdec as <-. cbn [directions position_along position_across].
  apply split_digits_inv in Ha as (Hpa & -> & Hva & Hba);
    [|apply fdims_in_Sint, Hra|exact Hl].
  assert (Hpa1 : 1 <= prod_Z (map (fdim_along L c) (seq 0 k))).
  { apply prod_Z_pos. eapply Forall_impl; [|exact Hpa]. simpl. lia. }
  apply split_digits_inv in Hc as (Hpc & _ & Hvc & Hbc);
    [|apply fdims_in_Sint, Hrc|apply Z.div_pos; lia].
  assert (Hpc1 : 1 <= prod_Z (map (fdim_across n L c) (seq 0 (n - k)))).
  { apply prod_Z_pos. eapply Forall_impl; [|exact Hpc]. simpl. lia. }
  exists b. repeat split; try assumption; try lia.
  - apply Forall_app. split; assumption.
  - rewrite mixed_radix_app
      by (apply Forall2_length in Hba; rewrite Hba; reflexivity).
    fold c. fold l.
    rewrite Hva, Hvc, prod_Z_app, Z.rem_mul_r by lia. reflexivity.
Qed.

Lemma Forall2_seq_nth (P : Z -> Z -> Prop) (f : nat -> Z) (m : nat) :
  forall lo ds, Forall2 P ds (map f (seq lo m)) ->
    forall j, (j < m)%nat -> P (array_get ds j) (f (lo + j)%nat).
Proof.
  unfold array_get.
  induction m as [|m IH]; intros lo ds H j Hj; [lia|].
  simpl in H. inversion H as [|a ? ds' ? Ha Hrest]; subst.
  destruct j as [|j]; simpl.
  - rewrite Nat.add_0_r. exact Ha.
  - rewrite Nat.add_succ_r. apply (IH (S lo) ds' Hrest j). lia.
Qed.

(** X5. Whatever the shape, an element that [operator[]] returns is
    well-formed: its [directions] is a valid combination, it has [k]
    along-digits and [n-k] across-digits, and every digit is below the
    radix of its axis. *)
Theorem decoded_well_formed (n k fuel : nat) (d : list Z) (L : Lexicographic)
    (i : Z) (e : Element) :
  Lexicographic_ctor n k fuel d = Some L ->
  shape n d ->
  0 <= i < Bint_modulus ->
  operator_brackets n k L i = Returned e ->
  well_formed n k d e.
Proof.
  intros Hctor Hd Hi Hdec. apply ctor_finished in Hctor as (-> & _).
  destruct (decode_inv n k d i e Hi Hdec)
    as (b & Hb & _ & Hdir & _ & Hba & Hbc & _).
  pose proof (Forall2_length Hba) as Hla.
  pose proof (Forall2_length Hbc) as Hlc.
  rewrite length_map, length_seq in Hla, Hlc.
  unfold well_formed. rewrite Hdir. split; [apply get_valid, Hb|].
  split; [exact Hla|]. split; [exact Hlc|]. split; intros j Hj.
  - pose proof (Forall2_seq_nth _ _ _ _ _ Hba j Hj) as H. simpl in H.
    rewrite fdim_along_built in H.
    pose proof (array_get_shape n d (in_ (get n k b) j) Hd) as [H0 _].
    pose proof (to_Tint_le (along_radix d (get n k b) j) H0). lia.
  - pose proof (Forall2_seq_nth _ _ _ _ _ Hbc j Hj) as H. simpl in H.
    rewrite fdim_across_built in H.
    pose proof (array_get_shape n d (out_ n (get n k b) j) Hd) as [H0 _].
    pose proof (to_Tint_le (across_radix n d (get n k b) j)
                  ltac:(unfold across_radix; lia)). lia.
Qed.

Lemma decoded_well_formed_witness :
  well_formed 1 1 [300]
    {| directions := [0%nat]; position_along := [6];
       position_across := [] |}.
Proof.
  apply (decoded_well_formed 1 1 300 [300]
           {| dimensions := [300]; block_sizes := [300] |} 50).
  - reflexivity.
  - split; [reflexivity|]. repeat constructor; intros H; discriminate H.
  - split; [intros H; discriminate H|reflexivity].
  - reflexivity.
Defined.

(** X6. Because the radix is held in a [Tint], no digit of an element
    that [operator[]] returns is above 254, whatever the dimensions of
    the grid are. *)
Theorem decoded_digits_small (n k fuel : nat) (d : list Z)
    (L : Lexicographic) (i : Z) (e : Element) :
  Lexicographic_ctor n k fuel d = Some L ->
  0 <= i < Bint_modulus ->
  operator_brackets n k L i = Returned e ->
  Forall (fun a => 0 <= a < Tint_modulus - 1)
    (position_along e ++ position_across e).
Proof.
  intros Hctor Hi Hdec. apply ctor_finished in Hctor as (-> & _).
  destruct (decode_inv n k d i e Hi Hdec)
    as (b & _ & _ & _ & _ & Hba & Hbc & _).
  pose proof (block_fdims_range n k (built n k d) (get n k b)) as Hrange.
  unfold block_fdims in Hrange. apply Forall_app in Hrange as [Hra Hrc].
  assert (Hsmall : forall ds rs,
            Forall2 (fun a r => 0 <= a < r) ds rs ->
            Forall (fun r => 0 <= r < Tint_modulus) rs ->
            Forall (fun a => 0 <= a < Tint_modulus - 1) ds).
  { intros ds rs H. induction H as [|a r ds rs Har _ IH]; intros Hrs;
      constructor; inversion Hrs; subst; [lia|auto]. }
  apply Forall_app. split; eapply Hsmall; eassumption.
Qed.

Lemma decoded_digits_small_witness :
  Forall (fun a => 0 <= a < Tint_modulus - 1) ([6] ++ []).
Proof.
  apply (decoded_digits_small 1 1 300 [300]
           {| dimensions := [300]; block_sizes := [300] |} 50
           {| directions := [0%nat]; position_along := [6];
              position_across := [] |}).
  - reflexivity.
  - split; [intros H; discriminate H|reflexivity].
  - reflexivity.
Defined.

(** X7. On a grid with positive dimensions whose radices fit the type
    [Tint], [operator[]] maps different indices below [size()] to
    different elements. *)
Theorem decode_injective (n k fuel : nat) (d : list Z) (L : Lexicographic)
    (i1 i2 : Z) :
  Lexicographic_ctor n k fuel d = Some L ->
  shape n d -> positive d -> radices_fit n k d ->
  0 <= i1 < size L -> 0 <= i2 < size L ->
  operator_brackets n k L i1 = operator_brackets n k L i2 ->
  i1 = i2.
Proof.
  intros Hctor Hd Hpos Hfit H1 H2 Heq.
  apply ctor_finished in Hctor as (-> & _).
  destruct (roundtrip_index n k d i1 Hd Hpos Hfit H1) as (e1 & He1 & <-).
  destruct (roundtrip_index n k d i2 Hd Hpos Hfit H2) as (e2 & He2 & <-).
  rewrite He1, He2 in Heq. injection Heq as ->. reflexivity.
Qed.

Lemma decode_injective_witness :
  let L := {| dimensions := [2; 3]; block_sizes := [8; 9] |} in
  operator_brackets 2 1 L 3 = operator_brackets 2 1 L 3 /\ 3 = 3.
Proof.
  cbv zeta. split; [reflexivity|].
  apply (decode_injective 2 1 300 [2; 3]
           {| dimensions := [2; 3]; block_sizes := [8; 9] |} 3 3).
  - reflexivity.
  - split; [reflexivity|]. repeat constructor; intros H; discriminate H.
  - repeat constructor; intros H; discriminate H.
  - apply small_dimensions_fit; [reflexivity|]. repeat constructor.
  - split; [intros H; discriminate H|reflexivity].
  - split; [intros H; discriminate H|reflexivity].
  - reflexivity.
Defined.

(** X8. On a grid whose number of cells is a [Bint], the index of a
    well-formed element is below [size()], and it lies in the range of
    its block: at or after the sizes of the blocks before, and before
    the end of its own block. *)
Theorem index_in_block (n k fuel : nat) (d : list Z) (L : Lexicographic)
    (e : Element) :
  Lexicographic_ctor n k fuel d = Some L ->
  shape n d -> fits_Bint n k d ->
  well_formed n k d e ->
  let ci := Combinations.index n k (directions e) in
  0 <= index n k L e < size L
  /\ stored_before L ci <= index n k L e
     < stored_before L ci + block_size L (Z.of_nat ci).
Proof.
  intros Hctor Hd Hfit He ci. apply ctor_finished in Hctor as (-> & _).
  destruct (index_range n k d e Hd Hfit He) as [_ Hrange]. fold ci in Hrange.
  destruct He as (Hv & _). apply get_index in Hv as [Hci _]. fold ci in Hci.
  pose proof (cells_before_mono n k d 0 Hd ci ltac:(lia)) as H0.
  pose proof (cells_before_mono n k d (S ci) Hd (binomial n k) Hci) as H1.
  rewrite cells_before_total in H1.
  rewrite size_total by assumption.
  rewrite stored_before_cells by (auto; lia).
  unfold block_size, array_get. rewrite Nat2Z.id.
  rewrite built_block, stored_cells by assumption.
  rewrite cells_before_S in *.
  assert (Hz : cells_before n k d 0 = 0) by reflexivity. lia.
Qed.

Lemma index_in_block_witness :
  let L := {| dimensions := [2; 3]; block_sizes := [8; 9] |} in
  let e := {| directions := [1%nat]; position_along := [2];
              position_across := [2] |} in
  0 <= index 2 1 L e < size L
  /\ stored_before L 1 <= index 2 1 L e
     < stored_before L 1 + block_size L 1.
Proof.
  cbv zeta.
  apply (index_in_block 2 1 300 [2; 3]
           {| dimensions := [2; 3]; block_sizes := [8; 9] |}
           {| directions := [1%nat]; position_along := [2];
              position_across := [2] |}).
  - reflexivity.
  - split; [reflexivity|]. repeat constructor; intros H; discriminate H.
  - reflexivity.
  - concrete_well_formed.
Defined.

(** Digits below the radices in use are decoded from their index in the
    block. *)
Lemma decode_of_digits (n k : nat) (d : list Z) (b : nat)
    (along across : list Z) :
  let L := built n k d in
  let c := get n k b in
  let i := stored_before L b
           + mixed_radix (block_fdims n k L c) (along ++ across) in
  (b < binomial n k)%nat ->
  Forall2 (fun a r => 0 <= a < r) along (map (fdim_along L c) (seq 0 k)) ->
  Forall2 (fun a r => 0 <= a < r) across
    (map (fdim_across n L c) (seq 0 (n - k))) ->
  i < stored_before L (S b) -> i < Bint_modulus ->
  operator_brackets n k L i
  = Returned {| directions := c; position_along := along;
                position_across := across |}.
Proof.
  intros L c i Hb Hba Hbc HiS Hi. subst i.
  pose proof (block_fdims_range n k L c) as Hrange.
  unfold block_fdims in *. apply Forall_app in Hrange as [Hra Hrc].
  rewrite mixed_radix_app in *
    by (apply Forall2_length in Hba; rewrite Hba; reflexivity).
  pose proof (mixed_radix_bound _ _ Hba) as Hma.
  pose proof (mixed_radix_bound _ _ Hbc) as Hmc.
  subst L c.
  rewrite (decode_located n k d b _ Hb Hi) by (split; [nia|exact HiS]).
  rewrite Z.add_simpl_l.
  rewrite split_digits_mixed_radix; [|exact Hba|].
  2:{ eapply Forall_impl; [|exact Hra]. simpl.
      rewrite Tint_modulus_eq, Sint_modulus_eq. lia. }
  rewrite <- (Z.add_0_r (mixed_radix _ across)).
  rewrite <- (Z.mul_0_r (prod_Z (map (fdim_across n (built n k d)
                                       (get n k b)) (seq 0 (n - k))))).
  rewrite split_digits_mixed_radix; [reflexivity|exact Hbc|].
  eapply Forall_impl; [|exact Hrc]. simpl.
  rewrite Tint_modulus_eq, Sint_modulus_eq. lia.
Qed.

(** X9. Whatever the shape, encoding an element that [operator[]]
    returned for the index [i] gives an index that is at most [i] and
    that decodes to the same element again. *)
Theorem encode_decoded (n k fuel : nat) (d : list Z) (L : Lexicographic)
    (i : Z) (e : Element) :
  Lexicographic_ctor n k fuel d = Some L ->
  0 <= i < Bint_modulus ->
  operator_brackets n k L i = Returned e ->
  0 <= index n k L e <= i
  /\ operator_brackets n k L (index n k L e) = Returned e.
Proof.
  intros Hctor Hi Hdec. apply ctor_finished in Hctor as (-> & _).
  destruct (decode_inv n k d i e Hi Hdec)
    as (b & Hb & Hloc & Hdir & Hpos & Hba & Hbc & Hv).
  pose proof (Forall2_length Hba) as Hla.
  pose proof (Forall2_length Hbc) as Hlc.
  rewrite length_map, length_seq in Hla, Hlc.
  set (P := prod_Z (block_fdims n k (built n k d) (get n k b))) in *.
  assert (HP : 1 <= P).
  { apply prod_Z_pos. eapply Forall_impl; [|exact Hpos]. simpl. lia. }
  pose proof (stored_before_nonneg n k d b) as Hsb.
  pose proof (Z.mod_pos_bound (i - stored_before (built n k d) b) P
                ltac:(lia)) as Hm.
  pose proof (Z.mod_le (i - stored_before (built n k d) b) P
                ltac:(lia) ltac:(lia)) as Hle.
  assert (Hidx : index n k (built n k d) e
                 = stored_before (built n k d) b
                   + mixed_radix (block_fdims n k (built n k d) (get n k b))
                       (position_along e ++ position_across e)).
  { rewrite index_value; rewrite Hdir, (index_get n k b Hb);
      [|rewrite built_length; lia].
    unfold digits_of.
    rewrite (map_array_get_all _ _ Hla), (map_array_get_all _ _ Hlc), Hv.
    apply to_Bint_small. lia. }
  split; [rewrite Hidx, Hv; lia|].
  rewrite Hidx.
  rewrite (decode_of_digits n k d b (position_along e) (position_across e));
    try assumption; try (rewrite Hv; lia).
  rewrite <- Hdir. destruct e; reflexivity.
Qed.

Lemma encode_decoded_witness :
  let L := {| dimensions := [300]; block_sizes := [300] |} in
  let e := {| directions := [0%nat]; position_along := [6];
              position_across := [] |} in
  0 <= index 1 1 L e <= 50
  /\ operator_brackets 1 1 L (index 1 1 L e) = Returned e.
Proof.
  cbv zeta.
  apply (encode_decoded 1 1 300 [300]
           {| dimensions := [300]; block_sizes := [300] |} 50).
  - reflexivity.
  - split; [intros H; discriminate H|reflexivity].
  - reflexivity.
Defined.

(* ================================================================== *)
(** * Further properties: blocks and zero radices *)
(* ================================================================== *)

Lemma sum_firstn_mono (l : list Z) : Forall (fun x => 0 <= x) l ->
  forall j j', (j <= j')%nat -> sum_Z (firstn j l) <= sum_Z (firstn j' l).
Proof.
  induction 1 as [|x l Hx Hl IH]; intros j j' Hj.
  - rewrite !firstn_nil. lia.
  - destruct j as [|j]; destruct j' as [|j']; simpl; try lia.
    + pose proof (sum_firstn_le l Hl j'). lia.
    + specialize (IH j j' ltac:(lia)). lia.
Qed.

(** X10. The indices below [size()] are split among the blocks in the
    order of the combinations: every such index lies in the range of
    exactly one block [b], which begins after the sizes of the blocks
    before and has the length [block_size(b)], and an element that
    [operator[]] returns for it has the [b]-th combination as its
    [directions]. *)
Theorem block_of_index (n k fuel : nat) (d : list Z) (L : Lexicographic)
    (i : Z) :
  Lexicographic_ctor n k fuel d = Some L ->
  0 <= i < size L ->
  exists b,
    (b < binomial n k)%nat
    /\ stored_before L b <= i < stored_before L b + block_size L (Z.of_nat b)
    /\ (forall b', (b' < binomial n k)%nat ->
          stored_before L b' <= i
          < stored_before L b' + block_size L (Z.of_nat b') ->
          b' = b)
    /\ (forall e, operator_brackets n k L i = Returned e ->
          directions e = get n k b).
Proof.
  intros Hctor Hi. apply ctor_finished in Hctor as (-> & _).
  rewrite size_sum in Hi.
  pose proof (to_Bint_range (sum_Z (block_sizes (built n k d)))) as Hr.
  pose proof (stored_before_nonneg n k d 0) as H0.
  pose proof (to_Bint_le _ (proj2 H0)) as Hle.
  destruct (block_exists _ (built_sizes_nonneg n k d) i ltac:(lia))
    as (b & Hb & Hloc).
  rewrite built_length in Hb.
  fold (stored_before (built n k d) b) in Hloc.
  fold (stored_before (built n k d) (S b)) in Hloc.
  assert (Hsize : forall b', (b' < binomial n k)%nat ->
            stored_before (built n k d) b'
            + block_size (built n k d) (Z.of_nat b')
            = stored_before (built n k d) (S b')).
  { intros b' Hb'. unfold block_size, array_get. rewrite Nat2Z.id.
    rewrite built_block, stored_before_S by exact Hb'. reflexivity. }
  exists b. split; [exact Hb|]. split; [rewrite Hsize by exact Hb; exact Hloc|].
  split.
  - intros b' Hb' Hloc'. rewrite Hsize in Hloc' by exact Hb'.
    pose proof (sum_firstn_mono _ (built_sizes_nonneg n k d)) as Hmono.
    destruct (Nat.lt_trichotomy b' b) as [Hlt|[Heq|Hgt]]; [|exact Heq|].
    + specialize (Hmono (S b') b ltac:(lia)).
      unfold stored_before in *. lia.
    + specialize (Hmono (S b) b' ltac:(lia)).
      unfold stored_before in *. lia.
  - intros e He.
    rewrite (decode_located n k d b i Hb ltac:(lia) Hloc) in He.
    destruct (split_digits _ (seq 0 k) _) as [[along q]|]; [|discriminate].
    destruct (split_digits _ (seq 0 (n - k)) _) as [[across q']|];
      [|discriminate].
    injection He as <-. reflexivity.
Qed.

Lemma block_of_index_witness :
  let L := {| dimensions := [2; 3]; block_sizes := [8; 9] |} in
  exists b,
    (b < binomial 2 1)%nat
    /\ stored_before L b <= 16 < stored_before L b + block_size L (Z.of_nat b)
    /\ (forall b', (b' < binomial 2 1)%nat ->
          stored_before L b' <= 16
          < stored_before L b' + block_size L (Z.of_nat b') ->
          b' = b)
    /\ (forall e, operator_brackets 2 1 L 16 = Returned e ->
          directions e = get 2 1 b).
Proof.
  cbv zeta.
  apply (block_of_index 2 1 300 [2; 3]
           {| dimensions := [2; 3]; block_sizes := [8; 9] |} 16).
  - reflexivity.
  - split; [intros H; discriminate H|reflexivity].
Defined.

(** X11. For an index in the range of block [b], [operator[]] divides
    by zero exactly when one of the radices of the block, [d[in(j)]] or
    [d[out(j)] + 1], is a multiple of 256 (its value as a [Tint] is 0);
    otherwise it returns an element. *)
Theorem zero_radix_iff (n k fuel : nat) (d : list Z) (L : Lexicographic)
    (b : nat) (i : Z) :
  Lexicographic_ctor n k fuel d = Some L ->
  (b < binomial n k)%nat ->
  i < Bint_modulus ->
  stored_before L b <= i < stored_before L b + block_size L (Z.of_nat b) ->
  (operator_brackets n k L i = DivisionByZero
   <-> Exists (fun r => r mod Tint_modulus = 0)
         (block_radices n k d (get n k b)))
  /\ (operator_brackets n k L i <> DivisionByZero ->
      exists e, operator_brackets n k L i = Returned e).
Proof.
  intros Hctor Hb Hi Hloc. apply ctor_finished in Hctor as (-> & _).
  assert (Hloc' : stored_before (built n k d) b <= i
                  < stored_before (built n k d) (S b)).
  { unfold block_size, array_get in Hloc. rewrite Nat2Z.id in Hloc.
    rewrite built_block in Hloc by exact Hb.
    rewrite stored_before_S by exact Hb. exact Hloc. }
  pose proof (block_fdims_range n k (built n k d) (get n k b)) as Hrange.
  assert (Hzero : Exists (fun r => r = 0)
                    (block_fdims n k (built n k d) (get n k b))
                  <-> Exists (fun r => r mod Tint_modulus = 0)
                        (block_radices n k d (get n k b))).
  { rewrite block_fdims_built, !Exists_exists. split.
    - intros (r & Hr & Hr0). apply in_map_iff in Hr as (x & <- & Hx).
      exists x. split; assumption.
    - intros (x & Hx & Hx0). exists (to_Tint x).
      split; [apply in_map, Hx|exact Hx0]. }
  destruct (Forall_Exists_dec (fun r => 0 < r) (fun r => Z_lt_dec 0 r)
              (block_fdims n k (built n k d) (get n k b)))
    as [Hpos|Hex].
  - destruct (decode_returns n k d b i Hb Hi Hloc' Hpos) as (e & He & _).
    split; [|intros _; exists e; exact He]. split.
    + rewrite He. discriminate.
    + intros Hz. apply Hzero in Hz.
      apply Exists_exists in Hz as (r & Hr & ->).
      rewrite Forall_forall in Hpos. specialize (Hpos 0 Hr). lia.
  - assert (Hz : Exists (fun r => r = 0)
                   (block_fdims n k (built n k d) (get n k b))).
    { apply Exists_exists in Hex as (r & Hr & Hr0). apply Exists_exists.
      exists r. split; [exact Hr|].
      rewrite Forall_forall in Hrange. specialize (Hrange r Hr). lia. }
    pose proof (decode_divides_by_zero n k d b i Hb Hi Hloc' Hz) as Hdiv.
    split; [|intros Hne; contradiction].
    split; [intros _; apply Hzero, Hz|intros _; exact Hdiv].
Qed.

Lemma zero_radix_iff_witness :
  let L := {| dimensions := [256]; block_sizes := [256] |} in
  (operator_brackets 1 1 L 5 = DivisionByZero
   <-> Exists (fun r => r mod Tint_modulus = 0)
         (block_radices 1 1 [256] (get 1 1 0)))
  /\ (operator_brackets 1 1 L 5 <> DivisionByZero ->
      exists e, operator_brackets 1 1 L 5 = Returned e).
Proof.
  cbv zeta.
  apply (zero_radix_iff 1 1 300 [256]
           {| dimensions := [256]; block_sizes := [256] |} 0 5).
  - reflexivity.
  - vm_compute. lia.
  - reflexivity.
  - split; [intros H; discriminate H|reflexivity].
Defined.

(* ================================================================== *)
(** * Further properties: how the operations compose *)
(* ================================================================== *)

(** X12. On a grid whose radices fit the type [Tint] and whose number
    of cells is a [Bint], every well-formed element is returned by
    [operator[]] for an index below [size()], namely for its own
    [index]. *)
Theorem every_element_decoded (n k fuel : nat) (d : list Z)
    (L : Lexicographic) (e : Element) :
  Lexicographic_ctor n k fuel d = Some L ->
  shape n d -> radices_fit n k d -> fits_Bint n k d ->
  well_formed n k d e ->
  exists i, 0 <= i < size L /\ operator_brackets n k L i = Returned e.
Proof.
  intros Hctor Hd Hrfit Hfit He. apply ctor_finished in Hctor as (-> & _).
  exists (index n k (built n k d) e). split.
  - destruct (index_range n k d e Hd Hfit He) as [_ Hrange].
    destruct He as (Hv & _). apply get_index in Hv as [Hci _].
    pose proof (cells_before_mono n k d 0 Hd
                  (Combinations.index n k (directions e)) ltac:(lia)) as H0.
    pose proof (cells_before_mono n k d _ Hd (binomial n k) Hci) as H1.
    rewrite cells_before_total in H1. rewrite size_total by assumption.
    assert (Hz : cells_before n k d 0 = 0) by reflexivity. lia.
  - apply roundtrip_element; assumption.
Qed.

Lemma every_element_decoded_witness :
  let L := {| dimensions := [2; 3]; block_sizes := [8; 9] |} in
  let e := {| directions := [1%nat]; position_along := [2];
              position_across := [2] |} in
  exists i, 0 <= i < size L /\ operator_brackets 2 1 L i = Returned e.
Proof.
  cbv zeta.
  apply (every_element_decoded 2 1 300 [2; 3]).
  - reflexivity.
  - split; [reflexivity|]. repeat constructor; intros H; discriminate H.
  - apply small_dimensions_fit; [reflexivity|]. repeat constructor.
  - reflexivity.
  - concrete_well_formed.
Defined.

(** X13. For an element that [operator[]] returned, the number that
    [print_debug] prints for axis [a] is a coordinate of the grid: it is
    between 0 and [d[a]], whatever [data] held before. *)
Theorem printed_coordinates_in_grid (n k fuel : nat) (d : list Z)
    (L : Lexicographic) (i : Z) (e : Element) (data : list Z) (a : nat) :
  Lexicographic_ctor n k fuel d = Some L ->
  shape n d ->
  0 <= i < Bint_modulus ->
  operator_brackets n k L i = Returned e ->
  length data = n -> (a < n)%nat ->
  0 <= array_get (print_debug_data n k e data) a <= array_get d a.
Proof.
  intros Hctor Hd Hi Hdec Hlen Ha.
  apply ctor_finished in Hctor as (-> & _).
  destruct (decode_inv n k d i e Hi Hdec)
    as (b & Hb & _ & Hdir & _ & Hba & Hbc & _).
  assert (Hv : valid n k (directions e))
    by (rewrite Hdir; apply get_valid, Hb).
  assert (Hslots :
            (forall j, (j < k)%nat ->
               array_get (print_debug_data n k e data) (in_ (directions e) j)
               = array_get (position_along e) j)
            /\ (forall j, (j < n - k)%nat ->
                  array_get (print_debug_data n k e data)
                    (out_ n (directions e) j)
                  = array_get (position_across e) j)).
  { unfold print_debug_data. split; intros j Hj.
    - rewrite scatter_other.
      + apply scatter_hit.
        * rewrite (map_in n k _ Hv). destruct Hv as (_ & Hinc & _).
          apply (increasing_NoDup _ 0%nat Hinc).
        * apply in_seq. lia.
        * rewrite Hlen. apply (in_lt n k); assumption.
      + intros i0 Hi0 Heq. apply in_seq in Hi0.
        assert (Hin : In (out_ n (directions e) i0)
                        (complement n (directions e))).
        { unfold out_. apply nth_In.
          rewrite (complement_length n k _ Hv). lia. }
        apply complement_In in Hin as [_ Hnotin]. apply Hnotin.
        rewrite Heq. unfold in_. apply nth_In.
        destruct Hv as (Hl & _). lia.
    - apply scatter_hit.
      + rewrite (map_out n k _ Hv). apply complement_NoDup.
      + apply in_seq. lia.
      + rewrite length_scatter, Hlen. apply (out_lt n k); assumption. }
  destruct Hslots as [Hin Hout].
  destruct (axis_covered n k _ a Hv Ha) as [(j & Hj & <-)|(j & Hj & <-)].
  - rewrite Hin by exact Hj. rewrite Hdir.
    pose proof (Forall2_seq_nth _ _ _ _ _ Hba j Hj) as H. simpl in H.
    rewrite fdim_along_built in H.
    pose proof (array_get_shape n d (in_ (get n k b) j) Hd) as [H0 _].
    pose proof (to_Tint_le (along_radix d (get n k b) j) H0).
    unfold along_radix in *. lia.
  - rewrite Hout by exact Hj. rewrite Hdir.
    pose proof (Forall2_seq_nth _ _ _ _ _ Hbc j Hj) as H. simpl in H.
    rewrite fdim_across_built in H.
    pose proof (array_get_shape n d (out_ n (get n k b) j) Hd) as [H0 _].
    pose proof (to_Tint_le (across_radix n d (get n k b) j)
                  ltac:(unfold across_radix; lia)).
    unfold across_radix in *. lia.
Qed.

Lemma printed_coordinates_in_grid_witness :
  let e := {| directions := [1%nat]; position_along := [2];
              position_across := [2] |} in
  0 <= array_get (print_debug_data 2 1 e [0; 0]) 0 <= array_get [2; 3] 0.
Proof.
  cbv zeta.
  apply (printed_coordinates_in_grid 2 1 300 [2; 3]
           {| dimensions := [2; 3]; block_sizes := [8; 9] |} 16).
  - reflexivity.
  - split; [reflexivity|]. repeat constructor; intros H; discriminate H.
  - split; [intros H; discriminate H|reflexivity].
  - reflexivity.
  - reflexivity.
  - lia.
Defined.
